(** * Shallow embedding of [repos/repos.py] (Raycast script managing GitHub repos)

    The script reconciles the repositories of a GitHub user against the
    directory [~/github/personal/].  The embedding keeps the names of the
    source: [Repos] is the Python class, [missing], [delete], [clone],
    [print] its methods, [parse_args] the argument handler.

    Conventions:
    - a Python [dict] is an association list in insertion order; reading
      [d[k]] is [dict_get] (first binding), assigning [d[k] = v] is
      [dict_set], which updates in place or appends, as a Python dict does;
    - the directory [repo_folder] is a list of entries (name, content);
      [os.path.exists(f"{repo_folder}{repo}")] is [path_exists] and
      [os.listdir(repo_folder)] is [listdir];
    - console output, prompts, shell commands and clones are events
      appended to a log. *)

From Stdlib Require Import String List Bool Arith Lia.
Import ListNotations.
Open Scope string_scope.
Open Scope list_scope.

(** ** Python dictionaries *)

Definition dict (V : Type) := list (string * V).

Fixpoint dict_get {V} (k : string) (d : dict V) : option V :=
  match d with
  | [] => None
  | (k', v) :: d' => if String.eqb k k' then Some v else dict_get k d'
  end.

Fixpoint dict_set {V} (k : string) (v : V) (d : dict V) : dict V :=
  match d with
  | [] => [(k, v)]
  | (k', v') :: d' =>
      if String.eqb k k' then (k', v) :: d' else (k', v') :: dict_set k v d'
  end.

Definition dict_keys {V} (d : dict V) : list string := map fst d.

Definition mem (x : string) (l : list string) : bool :=
  existsb (String.eqb x) l.

(** ** Data model *)

(** An element of [g.get_user().get_repos()] (the fields [get] reads and
    that matter to the script's decisions; the dates, size and watcher
    count are carried along without being inspected). *)
Record GhRepo := mkGhRepo {
  gh_name : string;
  gh_owner_login : string;
  gh_archived : bool;
  gh_git_url : string;
  gh_ssh_url : string;
  gh_visibility : string;
}.

(** The value stored in [self.active_repos[repo.name]]. *)
Record RepoInfo := mkRepoInfo {
  archived : bool;
  git_url : string;
  orphaned : bool;
  ssh_url : string;
  visibility : string;
}.

Definition set_orphaned (i : RepoInfo) : RepoInfo :=
  {| archived := archived i; git_url := git_url i; orphaned := true;
     ssh_url := ssh_url i; visibility := visibility i |}.

(** What [git.Repo(path)] finds in a directory entry: a working tree
    (with its [untracked_files] non-empty or not and [is_dirty()]), or
    something that cannot be opened as one (it raises). *)
Inductive Entry :=
  | WorkTree (untracked : bool) (dirty : bool)
  | NotWorkTree.

Definition Folder := list (string * Entry).

Definition listdir (fs : Folder) : list string := map fst fs.

Definition path_exists (repo : string) (fs : Folder) : bool :=
  mem repo (listdir fs).

Definition ignored_folders : list string := [".git"; ".DS_Store"; ".obsidian"].

Definition USE_GIT_URL : bool := false.

(** The attributes of a [Repos] instance. *)
Record Repos := mkRepos {
  repos : list GhRepo;
  interactive : bool;
  include_archived : bool;
  active_repos : dict RepoInfo;
  missing_repos : list string;
  orphaned_repos : list string;
  orphaned_repos_deleted : nat;
}.

(** ** [Repos.missing] *)

(** [repo] ranges over the keys of [self.active_repos], so the lookup
    [self.active_repos[repo]] always succeeds; the [None] branch is dead. *)
Fixpoint missing_loop (incl : bool) (d : dict RepoInfo) (fs : Folder)
    (keys : list string) : list string :=
  match keys with
  | [] => []
  | repo :: ks =>
      match dict_get repo d with
      | None => missing_loop incl d fs ks
      | Some info =>
          if negb incl && archived info then missing_loop incl d fs ks
          else
            (if negb (path_exists repo fs) then [repo] else [])
            ++ (if orphaned info && path_exists repo fs then [repo] else [])
            ++ missing_loop incl d fs ks
      end
  end.

Definition missing (self : Repos) (fs : Folder) : list string :=
  missing_loop (include_archived self) (active_repos self) fs
    (dict_keys (active_repos self)).

(** ** Orphan detection of [Repos.delete] (its two first loops) *)

Definition orphans_unknown (self : Repos) (fs : Folder) : list string :=
  filter (fun repo => negb (mem repo ignored_folders)
                      && negb (mem repo (dict_keys (active_repos self))))
    (listdir fs).

Definition orphans_archived (self : Repos) (fs : Folder) : list string :=
  filter (fun repo =>
            negb (include_archived self)
            && match dict_get repo (active_repos self) with
               | Some info => archived info
               | None => false
               end
            && path_exists repo fs)
    (dict_keys (active_repos self)).

(** The names the two loops append to [self.orphaned_repos]. *)
Definition collect_orphans (self : Repos) (fs : Folder) : list string :=
  orphans_unknown self fs ++ orphans_archived self fs.

(** [self.orphaned_repos] once the two loops have run. *)
Definition orphan_list (self : Repos) (fs : Folder) : list string :=
  orphaned_repos self ++ collect_orphans self fs.

(** ** Constructor and [Repos.get] *)

Definition repos_init (remote : list GhRepo) (incl inter : bool)
    (fs : Folder) : Repos :=
  let self0 := {| repos := remote; interactive := inter;
                  include_archived := incl; active_repos := [];
                  missing_repos := []; orphaned_repos := [];
                  orphaned_repos_deleted := 0 |} in
  {| repos := remote; interactive := inter; include_archived := incl;
     active_repos := [];
     missing_repos := missing self0 fs;
     orphaned_repos := [];
     orphaned_repos_deleted := 0 |}.

Definition info_of (r : GhRepo) : RepoInfo :=
  {| archived := gh_archived r; git_url := gh_git_url r; orphaned := false;
     ssh_url := gh_ssh_url r; visibility := gh_visibility r |}.

Fixpoint get_loop (u : string) (rs : list GhRepo) (d : dict RepoInfo)
    : dict RepoInfo :=
  match rs with
  | [] => d
  | r :: rs' =>
      get_loop u rs'
        (if String.eqb (gh_owner_login r) u
         then dict_set (gh_name r) (info_of r) d else d)
  end.

(** [Repos.get] for the user [u] (the environment's [GITHUB_USERNAME]):
    the updated object; the method also returns [active_repos]. *)
Definition repos_get (u : string) (self : Repos) : Repos :=
  {| repos := repos self; interactive := interactive self;
     include_archived := include_archived self;
     active_repos := get_loop u (repos self) (active_repos self);
     missing_repos := missing_repos self;
     orphaned_repos := orphaned_repos self;
     orphaned_repos_deleted := orphaned_repos_deleted self |}.

(** ** Effects: a state and exception monad over the object and the world *)

(** [Path.home()] is left symbolic. *)
Definition repo_folder : string := "~/github/personal/".

Inductive Color := Yellow | Grey | Green | Red.

Inductive Event :=
  | Out (line : string)                   (* print(line) *)
  | Status (c : Color) (line : string)    (* print(f"{colored dot} {line}") *)
  | Prompt (msg : string)                 (* the prompt written by input(msg) *)
  | System (cmd : string)                 (* os.system(cmd) *)
  | CloneFrom (url : string) (path : string) (* Repo.clone_from(url, path) *)
  | Help                                  (* parser.print_help() *)
  | Usage (msg : string).                 (* parser.error(msg): usage and message *)

Record World := mkWorld {
  fs : Folder;
  stdin : option bool;          (* None: sys.stdin is None; Some b: isatty() = b *)
  answers : list string;        (* the lines input() will read *)
  clone_fails : list string;    (* repos whose clone_from raises *)
  log : list Event;
}.

Inductive Exn :=
  | KeyError
  | UnboundLocalError
  | EOFError
  | GitCommandError
  | SystemExit (code : nat).

Record St := mkSt { self_ : Repos; world : World }.

Inductive Result (A : Type) := Ok (a : A) | Raise (e : Exn).
Arguments Ok {A} a.
Arguments Raise {A} e.

Definition M (A : Type) := St -> Result A * St.

Definition ret {A} (a : A) : M A := fun s => (Ok a, s).

Definition bind {A B} (m : M A) (f : A -> M B) : M B :=
  fun s => match m s with
           | (Ok a, s') => f a s'
           | (Raise e, s') => (Raise e, s')
           end.

Definition raise {A} (e : Exn) : M A := fun s => (Raise e, s).

Notation "x <- m ;; k" := (bind m (fun x => k))
  (at level 61, m at next level, right associativity).
Notation "m ;;; k" := (bind m (fun _ => k))
  (at level 61, right associativity).

Definition get_self : M Repos := fun s => (Ok (self_ s), s).
Definition put_self (r : Repos) : M unit :=
  fun s => (Ok tt, {| self_ := r; world := world s |}).
Definition get_world : M World := fun s => (Ok (world s), s).
Definition put_world (w : World) : M unit :=
  fun s => (Ok tt, {| self_ := self_ s; world := w |}).

Definition with_log (w : World) (l : list Event) : World :=
  {| fs := fs w; stdin := stdin w; answers := answers w;
     clone_fails := clone_fails w; log := l |}.

Definition emit (e : Event) : M unit :=
  w <- get_world ;; put_world (with_log w (log w ++ [e])).

Definition with_active (r : Repos) (d : dict RepoInfo) : Repos :=
  {| repos := repos r; interactive := interactive r;
     include_archived := include_archived r; active_repos := d;
     missing_repos := missing_repos r; orphaned_repos := orphaned_repos r;
     orphaned_repos_deleted := orphaned_repos_deleted r |}.

Definition with_orphans (r : Repos) (o : list string) (n : nat) : Repos :=
  {| repos := repos r; interactive := interactive r;
     include_archived := include_archived r; active_repos := active_repos r;
     missing_repos := missing_repos r; orphaned_repos := o;
     orphaned_repos_deleted := n |}.

(** [self.active_repos[repo]] *)
Definition getitem (repo : string) : M RepoInfo :=
  self <- get_self ;;
  match dict_get repo (active_repos self) with
  | Some i => ret i
  | None => raise KeyError
  end.

(** [input(msg)]: the prompt is written, then one line is read. *)
Definition input (msg : string) : M string :=
  emit (Prompt msg) ;;;
  w <- get_world ;;
  match answers w with
  | [] => raise EOFError
  | a :: rest =>
      put_world {| fs := fs w; stdin := stdin w; answers := rest;
                   clone_fails := clone_fails w; log := log w |} ;;;
      ret a
  end.

(** [os.system(f"rm -rf {repo_folder}{repo}")]. The command is run by the
    shell unquoted, so the folder effect written here (exactly the entry
    named [repo] disappears) is that of the shell only for names that the
    shell passes through as one plain word: see [shell_safe] below. For a
    name with a space the shell splits it into several paths, and for a
    glob character it expands it; the logged command is exact in all
    cases. *)
Definition rm_rf (repo : string) : M unit :=
  emit (System ("rm -rf " ++ repo_folder ++ repo)) ;;;
  w <- get_world ;;
  put_world {| fs := filter (fun e => negb (String.eqb (fst e) repo)) (fs w);
               stdin := stdin w; answers := answers w;
               clone_fails := clone_fails w; log := log w |}.

(** The names for which [rm_rf] above is what the shell does with
    [rm -rf ~/github/personal/<name>] (the home directory being a plain
    path): non-empty, neither [.] nor [..], and made only of letters,
    digits, [.], [_] and [-], so that the shell neither splits nor expands
    the word and [rm] removes exactly the entry [name] of the folder. *)
Definition shell_safe_char (c : Ascii.ascii) : bool :=
  let n := Ascii.nat_of_ascii c in
  (((48 <=? n) && (n <=? 57)) || ((65 <=? n) && (n <=? 90)) ||
   ((97 <=? n) && (n <=? 122)) || (n =? 46) || (n =? 95) || (n =? 45))%nat.

Fixpoint all_chars (p : Ascii.ascii -> bool) (str : string) : bool :=
  match str with
  | EmptyString => true
  | String c rest => p c && all_chars p rest
  end.

Definition shell_safe (name : string) : bool :=
  negb (mem name [""; "."; ".."]) && all_chars shell_safe_char name.

(** [Repo.clone_from(url, f"{repo_folder}{repo}")]: a fresh clean working
    tree appears, unless the clone fails and raises. *)
Definition clone_from (url : string) (repo : string) : M unit :=
  w <- get_world ;;
  if mem repo (clone_fails w) then raise GitCommandError
  else
    put_world {| fs := fs w ++ [(repo, WorkTree false false)];
                 stdin := stdin w; answers := answers w;
                 clone_fails := clone_fails w;
                 log := log w ++ [CloneFrom url (repo_folder ++ repo)] |}.

(** ** String helpers: [str.replace], [str.lower], [str(n)] *)

Fixpoint replace_aux (fuel : nat) (pat rep s : string) : string :=
  match fuel with
  | 0 => s
  | S f =>
      match s with
      | EmptyString => EmptyString
      | String c s' =>
          if String.prefix pat s
          then rep ++ replace_aux f pat rep
                        (substring (String.length pat) (String.length s) s)
          else String c (replace_aux f pat rep s')
      end
  end.

(** [s.replace(pat, rep)] for a non-empty [pat] (the script only
    replaces ["github.com"]). *)
Definition str_replace (pat rep s : string) : string :=
  if String.eqb pat "" then s else replace_aux (String.length s) pat rep s.

Definition lower_ascii (c : Ascii.ascii) : Ascii.ascii :=
  let n := Ascii.nat_of_ascii c in
  if (65 <=? n)%nat && (n <=? 90)%nat then Ascii.ascii_of_nat (n + 32)%nat else c.

Fixpoint lower (s : string) : string :=
  match s with
  | EmptyString => EmptyString
  | String c s' => String (lower_ascii c) (lower s')
  end.

Fixpoint digits (fuel n : nat) (acc : string) : string :=
  match fuel with
  | 0 => acc
  | S f =>
      let acc' := String (Ascii.ascii_of_nat (48 + n mod 10)%nat) acc in
      if (n <? 10)%nat then acc' else digits f (n / 10)%nat acc'
  end.

Definition str_nat (n : nat) : string := digits (S n) n "".

(** ** [Repos.print] *)

Fixpoint entry_of (repo : string) (fs : Folder) : option Entry :=
  match fs with
  | [] => None
  | (n, e) :: fs' => if String.eqb repo n then Some e else entry_of repo fs'
  end.

(** [cur] is the function-local [current_repo]: [None] while unbound,
    else the [(untracked_files, is_dirty())] of the last [Repo] opened.
    A failing [Repo(...)] leaves it as it was. *)
Fixpoint print_loop (cur : option (bool * bool)) (rs : list string) : M unit :=
  match rs with
  | [] => ret tt
  | repo :: rs' =>
      w <- get_world ;;
      if path_exists repo (fs w) then
        cur' <- (match entry_of repo (fs w) with
                 | Some (WorkTree u d) => ret (Some (u, d))
                 | _ =>
                     (* except: self.active_repos[repo]["orphaned"] = True *)
                     info <- getitem repo ;;
                     self <- get_self ;;
                     put_self (with_active self
                       (dict_set repo (set_orphaned info) (active_repos self))) ;;;
                     ret cur
                 end) ;;
        match cur' with
        | None => raise UnboundLocalError
        | Some (untracked, dirty) =>
            (if untracked then emit (Status Yellow (repo ++ " (untracked files)"))
             else if dirty then emit (Status Yellow (repo ++ " (dirty)"))
             else
               info <- getitem repo ;;
               if orphaned info then emit (Status Yellow (repo ++ " (orphaned)"))
               else if archived info then emit (Status Grey (repo ++ " (archived)"))
               else emit (Status Green repo)) ;;;
            print_loop cur' rs'
        end
      else
        emit (Status Grey (repo ++ " (archived not cloned)")) ;;;
        print_loop cur rs'
  end.

Definition print (rs : list string) : M unit := print_loop None rs.

(** ** [Repos.clone] *)

(** One iteration of the loop of [Repos.clone]; [continue] is [ret tt]. *)
Definition clone_one (repo : string) : M unit :=
  self <- get_self ;;
  skip <- (if negb (include_archived self)
           then info <- getitem repo ;; ret (archived info)
           else ret false) ;;
  if skip then ret tt
  else
    emit (Out "") ;;;
    emit (Out ("Cloning " ++ repo ++ "...")) ;;;
    w <- get_world ;;
    if negb (path_exists repo (fs w)) then
      info <- getitem repo ;;
      if USE_GIT_URL then clone_from (git_url info) repo
      else clone_from (str_replace "github.com" "github-dg" (ssh_url info)) repo
    else ret tt.

Fixpoint clone_loop (rs : list string) : M unit :=
  match rs with
  | [] => ret tt
  | repo :: rs' => clone_one repo ;;; clone_loop rs'
  end.

Definition clone (missing_repos : list string) : M unit := clone_loop missing_repos.

(** ** [Repos.delete] *)

Definition incr_deleted : M unit :=
  self <- get_self ;;
  put_self (with_orphans self (orphaned_repos self)
              (S (orphaned_repos_deleted self))).

(** One iteration of the deletion loop of [Repos.delete]. *)
Definition delete_one (ignore_prompt : bool) (repo : string) : M unit :=
  self <- get_self ;;
  if ignore_prompt || negb (interactive self) then
    (* Raycast does not support input: delete without confirmation *)
    rm_rf repo ;;; incr_deleted
  else
    choice <- input ("Press 'y' to delete " ++ repo ++ "...") ;;
    if String.eqb (lower choice) "y" then rm_rf repo ;;; incr_deleted
    else ret tt.

Fixpoint delete_loop (ignore_prompt : bool) (rs : list string) : M unit :=
  match rs with
  | [] => ret tt
  | repo :: rs' => delete_one ignore_prompt repo ;;; delete_loop ignore_prompt rs'
  end.

Definition delete (ignore_prompt : bool) : M unit :=
  self <- get_self ;;
  w <- get_world ;;
  let orph := orphan_list self (fs w) in
  put_self (with_orphans self orph (orphaned_repos_deleted self)) ;;;
  match orph with
  | [] => emit (Out "") ;;; emit (Out "No orphaned repos found.")
  | _ :: _ =>
      delete_loop ignore_prompt orph ;;;
      self' <- get_self ;;
      emit (Out ("Deleted " ++ str_nat (orphaned_repos_deleted self')
                 ++ " orphaned repos."))
  end.

(** ** [parse_args] *)

Record Namespace := mkNamespace {
  a_archived : bool; a_clone : bool; a_delete : bool; a_missing : bool;
  a_yes : bool;
}.

(** [sys.stdin and sys.stdin.isatty()] *)
Definition stdin_isatty (w : World) : bool :=
  match stdin w with Some b => b | None => false end.

(** What [parser.parse_known_args()] does with a command line: it either
    returns the namespace of the five declared flags with the list of
    unrecognised arguments, or it exits by itself after printing ([-h]
    prints the help and exits with status 0, a malformed use of a declared
    option prints the usage with an error and exits with status 2). *)
Inductive ParseResult :=
  | Known (ns : Namespace) (unknown : list string)
  | ParserExit (code : nat) (out : Event).

Section ParseArgs.

Variable parse_known_args : list string -> ParseResult.

Definition parse_args (argv : list string) : M Namespace :=
  match parse_known_args argv with
  | ParserExit code out => emit out ;;; raise (SystemExit code)
  | Known args unknown =>
      w <- get_world ;;
      if stdin_isatty w then
        match unknown with
        | [] => ret args
        | _ :: _ => emit Help ;;; raise (SystemExit 1)
        end
      else ret args
  end.

End ParseArgs.

(** The declared long options, each a [store_true] flag. *)
Definition long_flags : list string :=
  ["--archived"; "--clone"; "--delete"; "--missing"; "--yes"].

(** [--flag=value] for a [store_true] flag: argparse reports
    "ignored explicit argument". *)
Definition explicit_flag_value (a : string) : bool :=
  existsb (fun f => String.prefix (f ++ "=") a) long_flags.

(** A concrete instance of [parse_known_args] for the witnesses, reading
    the arguments from left to right as argparse does: [-h] or [--help]
    prints the help and exits with status 0; [--flag=value] for one of the
    flags exits with status 2; an argument that spells one of the declared
    options sets its flag; every other argument is unrecognised. (It does
    not cover argparse's abbreviations of long options, grouped short
    flags or the [--] separator.) *)
Fixpoint known_args (argv : list string) : ParseResult :=
  match argv with
  | [] => Known (mkNamespace false false false false false) []
  | a :: rest =>
      if mem a ["-h"; "--help"] then ParserExit 0 Help
      else if explicit_flag_value a then
        ParserExit 2 (Usage ("argument: ignored explicit argument in " ++ a))
      else
      match known_args rest with
      | ParserExit code out => ParserExit code out
      | Known ns unk =>
      if mem a ["-a"; "--archived"] then
        Known {| a_archived := true; a_clone := a_clone ns; a_delete := a_delete ns;
                 a_missing := a_missing ns; a_yes := a_yes ns |} unk
      else if mem a ["-c"; "--clone"] then
        Known {| a_archived := a_archived ns; a_clone := true; a_delete := a_delete ns;
                 a_missing := a_missing ns; a_yes := a_yes ns |} unk
      else if mem a ["-d"; "--delete"] then
        Known {| a_archived := a_archived ns; a_clone := a_clone ns; a_delete := true;
                 a_missing := a_missing ns; a_yes := a_yes ns |} unk
      else if mem a ["-m"; "--missing"] then
        Known {| a_archived := a_archived ns; a_clone := a_clone ns;
                 a_delete := a_delete ns; a_missing := true; a_yes := a_yes ns |} unk
      else if mem a ["-y"; "--yes"] then
        Known {| a_archived := a_archived ns; a_clone := a_clone ns;
                 a_delete := a_delete ns; a_missing := a_missing ns; a_yes := true |} unk
      else Known ns (a :: unk)
      end
  end.

(** ** [main] of [repos/repos.py] *)

(** The partition of lines 209-223: active names (all of them with
    [--archived]) by visibility, skipping names of the ignore-set, in the
    dictionary's order. *)
Fixpoint classify_loop (incl : bool) (d : dict RepoInfo) (keys : list string)
    : list string * list string :=
  match keys with
  | [] => ([], [])
  | repo :: ks =>
      let (public, private) := classify_loop incl d ks in
      if mem repo ignored_folders then (public, private)
      else
        match dict_get repo d with
        | None => (public, private)
        | Some info =>
            if negb incl && archived info then (public, private)
            else if String.eqb (visibility info) "public"
            then (repo :: public, private)
            else (public, repo :: private)
        end
  end.

Definition classify (all_repos : dict RepoInfo) (incl : bool)
    : list string * list string :=
  classify_loop incl all_repos (dict_keys all_repos).

(** Lines 233-234: [for repo in missing_repos: repositories.clone(missing_repos)]. *)
Fixpoint clone_each (iter missing_repos : list string) : M unit :=
  match iter with
  | [] => ret tt
  | _ :: it => clone missing_repos ;;; clone_each it missing_repos
  end.

Fixpoint emit_all (es : list Event) : M unit :=
  match es with
  | [] => ret tt
  | e :: es' => emit e ;;; emit_all es'
  end.

(** [main()] for the remote listing [remote] of [g.get_user().get_repos()],
    the user [u] and the command line [argv]. *)
Definition main (parse_known_args : list string -> ParseResult)
    (remote : list GhRepo) (u : string) (argv : list string) : M unit :=
  args <- parse_args parse_known_args argv ;;
  w <- get_world ;;
  let interactive := stdin_isatty w in
  let incl := a_archived args in
  put_self (repos_init remote incl interactive (fs w)) ;;;
  self <- get_self ;;
  put_self (repos_get u self) ;;;
  self1 <- get_self ;;
  let all_repos := active_repos self1 in
  w1 <- get_world ;;
  let missing_repos := missing self1 (fs w1) in
  match all_repos with
  | [] => emit (Out "No repos found.")
  | _ :: _ =>
      let (public, private) := classify all_repos incl in
      (match public with
       | [] => ret tt
       | _ :: _ =>
           emit (Out ("Public repos (" ++ str_nat (length public) ++ "):")) ;;;
           print public
       end) ;;;
      (match private with
       | [] => ret tt
       | _ :: _ =>
           emit (Out "") ;;;
           emit (Out ("Private repos (" ++ str_nat (length private) ++ "):")) ;;;
           print private
       end) ;;;
      (if a_clone args then
         match missing_repos with
         | [] => emit (Out "") ;;; emit (Out "No missing repos to clone.")
         | _ :: _ => clone_each missing_repos missing_repos
         end
       else ret tt) ;;;
      (if a_missing args then
         match missing_repos with
         | [] => emit (Out "") ;;; emit (Out "No missing repos.")
         | _ :: _ =>
             emit (Out "") ;;; emit (Out "Missing repos:") ;;;
             emit_all (map (Status Red) missing_repos)
         end
       else ret tt) ;;;
      (if a_delete args then delete (a_yes args) else ret tt)
  end.

(** ** The earlier script [repos.py] *)

Module Legacy.

(** [MissingRepos.missing_repos]: every key of the dictionary with no
    local directory, archived or not (only the keys are read). *)
Definition missing_repos {V} (repos : dict V) (fs : Folder) : list string :=
  filter (fun repo => negb (path_exists repo fs)) (dict_keys repos).

(** The orphans of [DeleteRepos.delete_repos]: local entries outside the
    ignore-set that are not keys. *)
Definition orphaned_repos {V} (repos : dict V) (fs : Folder) : list string :=
  filter (fun repo => negb (mem repo ignored_folders)
                      && negb (mem repo (dict_keys repos)))
    (listdir fs).

End Legacy.

(** * Properties *)

(** ** Helper lemmas on lookups and membership *)

Lemma mem_In (x : string) (l : list string) : mem x l = true <-> In x l.
Proof.
  unfold mem. rewrite existsb_exists. split.
  - intros [y [Hy Heq]]. apply String.eqb_eq in Heq. subst. exact Hy.
  - intros H. exists x. split; [exact H | apply String.eqb_refl].
Qed.

Lemma mem_false_not_In (x : string) (l : list string) :
  mem x l = false <-> ~ In x l.
Proof.
  rewrite <- mem_In. destruct (mem x l); split; congruence.
Qed.

Lemma dict_get_keys {V} (k : string) (d : dict V) :
  (exists v, dict_get k d = Some v) <-> In k (dict_keys d).
Proof.
  induction d as [| [k' v'] d IH]; simpl.
  - split; [intros [v H]; discriminate | tauto].
  - destruct (String.eqb_spec k k') as [-> | Hne].
    + split; [intros _; left; reflexivity | intros _; exists v'; reflexivity].
    + rewrite IH. split; [tauto | intros [H | H]; [congruence | exact H]].
Qed.

Lemma dict_get_In {V} (k : string) (v : V) (d : dict V) :
  dict_get k d = Some v -> In (k, v) d.
Proof.
  induction d as [| [k' v'] d IH]; simpl; [discriminate |].
  destruct (String.eqb_spec k k') as [-> | _].
  - intros H; injection H as <-; left; reflexivity.
  - intros H; right; apply IH, H.
Qed.

Create HintDb repos_db.
#[local] Hint Resolve dict_get_In : repos_db.

(** Membership in the list computed by [Repos.missing]. *)
Lemma missing_loop_spec (incl : bool) (d : dict RepoInfo) (fs : Folder)
    (keys : list string) (x : string) :
  In x (missing_loop incl d fs keys) <->
  In x keys /\
  exists info, dict_get x d = Some info /\
    (incl = true \/ archived info = false) /\
    (path_exists x fs = false \/ orphaned info = true).
Proof.
  induction keys as [| repo ks IH]; simpl.
  - split; [contradiction | intros [[] _]].
  - destruct (dict_get repo d) as [info |] eqn:Hget.
    + destruct (negb incl && archived info) eqn:Hskip.
      * rewrite IH. apply andb_true_iff in Hskip as [Hi Ha].
        apply negb_true_iff in Hi. subst incl.
        split.
        -- intros [Hin Hex]. split; [right; exact Hin | exact Hex].
        -- intros [[<- | Hin] [info' [Hg [[Hc | Hc] Hp]]]].
           ++ discriminate.
           ++ rewrite Hget in Hg. injection Hg as <-. congruence.
           ++ discriminate.
           ++ split; [exact Hin | exists info'; auto].
      * rewrite !in_app_iff, IH.
        assert (Hok : incl = true \/ archived info = false).
        { destruct incl, (archived info); simpl in Hskip; auto; discriminate. }
        split.
        -- intros [H | [H | [Hin Hex]]].
           ++ destruct (path_exists repo fs) eqn:Hp; simpl in H; [contradiction |].
              destruct H as [<- | []].
              split; [left; reflexivity | exists info; auto].
           ++ destruct (orphaned info && path_exists repo fs) eqn:Ho;
                simpl in H; [| contradiction].
              destruct H as [<- | []]. apply andb_true_iff in Ho as [Ho _].
              split; [left; reflexivity | exists info; auto].
           ++ split; [right; exact Hin | exact Hex].
        -- intros [[<- | Hin] [info' [Hg [Hc Hp]]]].
           ++ rewrite Hget in Hg. injection Hg as <-.
              destruct Hp as [Hp | Hp].
              ** left. rewrite Hp. left. reflexivity.
              ** destruct (path_exists repo fs) eqn:He.
                 --- right; left. rewrite Hp. simpl. left. reflexivity.
                 --- left. left. reflexivity.
           ++ right; right. split; [exact Hin | exists info'; auto].
    + rewrite IH. split.
      * intros [Hin Hex]. split; [right; exact Hin | exact Hex].
      * intros [[<- | Hin] Hex].
        -- destruct Hex as [info' [Hg _]]. congruence.
        -- split; [exact Hin | exact Hex].
Qed.

Lemma missing_spec (self : Repos) (fs : Folder) (x : string) :
  In x (missing self fs) <->
  exists info, dict_get x (active_repos self) = Some info /\
    (include_archived self = true \/ archived info = false) /\
    (path_exists x fs = false \/ orphaned info = true).
Proof.
  unfold missing. rewrite missing_loop_spec. split.
  - intros [_ H]. exact H.
  - intros [info [Hg H]]. split; [| exists info; auto].
    apply dict_get_keys. exists info. exact Hg.
Qed.

Lemma collect_orphans_spec (self : Repos) (fs : Folder) (x : string) :
  In x (collect_orphans self fs) <->
  (In x (listdir fs) /\ ~ In x ignored_folders
   /\ ~ In x (dict_keys (active_repos self)))
  \/ (include_archived self = false
      /\ (exists info, dict_get x (active_repos self) = Some info
                       /\ archived info = true)
      /\ path_exists x fs = true).
Proof.
  unfold collect_orphans, orphans_unknown, orphans_archived.
  rewrite in_app_iff, !filter_In. split.
  - intros [[Hin Hb] | [Hk Hb]].
    + left. apply andb_true_iff in Hb as [H1 H2].
      apply negb_true_iff, mem_false_not_In in H1.
      apply negb_true_iff, mem_false_not_In in H2. auto.
    + right. apply andb_true_iff in Hb as [Hb Hp].
      apply andb_true_iff in Hb as [Hi Ha]. apply negb_true_iff in Hi.
      destruct (dict_get x (active_repos self)) as [info |] eqn:Hg; [| discriminate].
      split; [exact Hi | split; [exists info; auto | exact Hp]].
  - intros [[Hin [H1 H2]] | [Hi [[info [Hg Ha]] Hp]]].
    + left. split; [exact Hin |].
      apply mem_false_not_In in H1. apply mem_false_not_In in H2.
      rewrite H1, H2. reflexivity.
    + right. split.
      * apply dict_get_keys. exists info. exact Hg.
      * rewrite Hi, Hg, Ha, Hp. reflexivity.
Qed.

Lemma dict_get_set {V} (k k' : string) (v : V) (d : dict V) :
  dict_get k (dict_set k' v d) = if String.eqb k k' then Some v else dict_get k d.
Proof.
  induction d as [| [k0 v0] d IH]; simpl.
  - reflexivity.
  - destruct (String.eqb_spec k' k0) as [-> | Hne]; simpl.
    + destruct (String.eqb k k0); reflexivity.
    + rewrite IH. destruct (String.eqb_spec k k') as [-> | Hkk'].
      * destruct (String.eqb_spec k' k0); [contradiction | reflexivity].
      * reflexivity.
Qed.

Definition none_orphaned (d : dict RepoInfo) : Prop :=
  forall k i, dict_get k d = Some i -> orphaned i = false.

Lemma get_loop_none_orphaned (u : string) (rs : list GhRepo) (d : dict RepoInfo) :
  none_orphaned d -> none_orphaned (get_loop u rs d).
Proof.
  revert d. induction rs as [| r rs IH]; intros d Hd; simpl; [exact Hd |].
  apply IH. destruct (String.eqb (gh_owner_login r) u); [| exact Hd].
  intros k i Hg. rewrite dict_get_set in Hg.
  destruct (String.eqb k (gh_name r)).
  - injection Hg as <-. reflexivity.
  - exact (Hd k i Hg).
Qed.

(** The records fetched by [Repos.get] on a fresh object are not marked
    orphaned. *)
Lemma fetched_none_orphaned (u : string) (remote : list GhRepo)
    (incl inter : bool) (fs0 : Folder) :
  none_orphaned (active_repos (repos_get u (repos_init remote incl inter fs0))).
Proof.
  apply get_loop_none_orphaned. intros k i H. discriminate.
Qed.

(** ** C1 *)

(** C1: a name computed as missing by [Repos.missing] is never among the
    orphans collected by [Repos.delete], whatever the local folder is at
    each of the two moments (a clone may run in between). *)
Theorem missing_orphaned_disjoint (self : Repos) (fs1 fs2 : Folder) (x : string)
    (Hm : In x (missing self fs1)) :
  ~ In x (collect_orphans self fs2).
Proof.
  apply missing_spec in Hm as [info [Hg [Hc _]]].
  rewrite collect_orphans_spec.
  intros [[_ [_ Hk]] | [Hi [[info' [Hg' Ha]] _]]].
  - apply Hk, dict_get_keys. exists info. exact Hg.
  - rewrite Hg in Hg'. injection Hg' as <-.
    destruct Hc as [Hc | Hc]; congruence.
Qed.

Definition info_public (arch orph : bool) : RepoInfo :=
  {| archived := arch; git_url := ""; orphaned := orph; ssh_url := "";
     visibility := "public" |}.

Definition sample_self : Repos :=
  {| repos := []; interactive := false; include_archived := false;
     active_repos := [("alpha", info_public false false);
                      ("beta", info_public true false)];
     missing_repos := []; orphaned_repos := []; orphaned_repos_deleted := 0 |}.

Definition sample_fs : Folder :=
  [("beta", WorkTree false false); ("ghost", WorkTree false false)].

Lemma missing_orphaned_disjoint_witness :
  In "alpha" (missing sample_self []) /\
  ~ In "alpha" (collect_orphans sample_self sample_fs).
Proof.
  assert (H : In "alpha" (missing sample_self [])) by (vm_compute; left; reflexivity).
  exact (conj H (missing_orphaned_disjoint sample_self [] sample_fs "alpha" H)).
Defined.

(** ** C2 *)

Definition world_of (f : Folder) : World :=
  {| fs := f; stdin := None; answers := []; clone_fails := []; log := [] |}.

Definition self_of (d : dict RepoInfo) (incl inter : bool) : Repos :=
  {| repos := []; interactive := inter; include_archived := incl;
     active_repos := d; missing_repos := []; orphaned_repos := [];
     orphaned_repos_deleted := 0 |}.

(** [beta] is a clean working tree, [alpha] a directory [git] cannot open. *)
Definition broken_fs : Folder := [("beta", WorkTree false false); ("alpha", NotWorkTree)].

Definition broken_st : St :=
  {| self_ := self_of [("beta", info_public false false);
                       ("alpha", info_public false false)] false false;
     world := world_of broken_fs |}.

(** The object once [print(["beta", "alpha"])] has run on it. *)
Definition printed_self : Repos := self_ (snd (print ["beta"; "alpha"] broken_st)).

(** C2 fails as stated: once [print] has marked [alpha] orphaned, a later
    [missing()] lists [alpha] although its directory exists. *)
Lemma missing_exact_counterexample :
  ~ (forall x, In x (missing printed_self broken_fs) <->
       exists info, dict_get x (active_repos printed_self) = Some info /\
         (include_archived printed_self = true \/ archived info = false) /\
         path_exists x broken_fs = false).
Proof.
  intros H. destruct (H "alpha") as [H1 _].
  destruct (H1 ltac:(vm_compute; tauto)) as [i [_ [_ Hp]]].
  vm_compute in Hp. discriminate.
Qed.

(** C2 (amended): a name is listed by [Repos.missing] iff it is a key of
    the inventory whose record is kept (include_archived, or not archived)
    and either no directory of that name exists or the record carries the
    [orphaned] mark; with include_archived false every listed name is
    non-archived; and when no record is marked orphaned (as after [get]),
    listed means exactly: kept and absent locally. *)
Theorem missing_membership (self : Repos) (fs : Folder) (x : string) :
  (In x (missing self fs) <->
   exists info, dict_get x (active_repos self) = Some info /\
     (include_archived self = true \/ archived info = false) /\
     (path_exists x fs = false \/ orphaned info = true))
  /\ (include_archived self = false -> In x (missing self fs) ->
      exists info, dict_get x (active_repos self) = Some info /\
        archived info = false)
  /\ (none_orphaned (active_repos self) ->
      (In x (missing self fs) <->
       exists info, dict_get x (active_repos self) = Some info /\
         (include_archived self = true \/ archived info = false) /\
         path_exists x fs = false)).
Proof.
  split; [apply missing_spec |]. split.
  - intros Hi Hm. apply missing_spec in Hm as [info [Hg [Hc _]]].
    exists info. split; [exact Hg |]. destruct Hc; congruence.
  - intros Hno. rewrite missing_spec. split.
    + intros [info [Hg [Hc [Hp | Ho]]]].
      * exists info. auto.
      * rewrite (Hno x info Hg) in Ho. discriminate.
    + intros [info [Hg [Hc Hp]]]. exists info. auto.
Qed.

(** ** C3 *)

(** C3: a local entry outside the ignore-set is collected as orphaned by
    [Repos.delete] iff it is not an inventory key, or it is the key of an
    archived record while include_archived is false. *)
Theorem collect_orphans_local (self : Repos) (fs : Folder) (x : string)
    (Hloc : In x (listdir fs)) (Hign : ~ In x ignored_folders) :
  In x (collect_orphans self fs) <->
  ~ In x (dict_keys (active_repos self))
  \/ (exists info, dict_get x (active_repos self) = Some info /\
        archived info = true /\ include_archived self = false).
Proof.
  assert (Hp : path_exists x fs = true) by (apply mem_In; exact Hloc).
  rewrite collect_orphans_spec. split.
  - intros [[_ [_ Hk]] | [Hi [[info [Hg Ha]] _]]].
    + left. exact Hk.
    + right. exists info. auto.
  - intros [Hk | [info [Hg [Ha Hi]]]].
    + left. auto.
    + right. split; [exact Hi | split; [exists info; auto | exact Hp]].
Qed.

Lemma collect_orphans_local_witness :
  In "ghost" (listdir sample_fs) /\ ~ In "ghost" ignored_folders /\
  (In "ghost" (collect_orphans sample_self sample_fs) <->
   ~ In "ghost" (dict_keys (active_repos sample_self))
   \/ (exists info, dict_get "ghost" (active_repos sample_self) = Some info /\
         archived info = true /\ include_archived sample_self = false)).
Proof.
  assert (H1 : In "ghost" (listdir sample_fs)) by (vm_compute; right; left; reflexivity).
  assert (H2 : ~ In "ghost" ignored_folders)
    by (apply mem_false_not_In; reflexivity).
  exact (conj H1 (conj H2 (collect_orphans_local sample_self sample_fs "ghost" H1 H2))).
Defined.

(** ** C10 *)

(** C10: the [missing_repos] attribute set by the constructor is empty for
    every remote listing and every local folder, since [missing()] runs
    while [active_repos] is still empty; [get] does not refresh it. *)
Theorem init_missing_repos_empty (remote : list GhRepo) (incl inter : bool)
    (fs : Folder) (u : string) :
  missing_repos (repos_init remote incl inter fs) = [] /\
  missing_repos (repos_get u (repos_init remote incl inter fs)) = [].
Proof. split; reflexivity. Qed.

(** ** C4 *)

Definition open_fail_st : St :=
  {| self_ := self_of [("alpha", info_public false false);
                       ("beta", info_public false false)] false false;
     world := world_of [("alpha", NotWorkTree); ("beta", WorkTree false false)] |}.

(** C4 (code bug): when the first listed directory that exists cannot be
    opened by [Repo(...)], the [except] branch marks it orphaned but the
    next line reads the still unbound [current_repo]: [print] raises, no
    line is printed and [beta] is never inspected. *)
Lemma print_open_failure_raises :
  fst (print ["alpha"; "beta"] open_fail_st) = Raise UnboundLocalError /\
  log (world (snd (print ["alpha"; "beta"] open_fail_st))) = [].
Proof. vm_compute. split; reflexivity. Qed.

(** ** C5 *)

(** C5 fails as stated: after [print(["beta", "alpha"])] returns normally,
    the record of [alpha] has changed (its [orphaned] flag is now set). *)
Lemma print_mutates_counterexample :
  fst (print ["beta"; "alpha"] broken_st) = Ok tt /\
  dict_get "alpha" (active_repos (self_ broken_st)) = Some (info_public false false) /\
  dict_get "alpha" (active_repos printed_self) = Some (info_public false true).
Proof. vm_compute. repeat split. Qed.

(** [Repo(f"{repo_folder}{repo}")] raises on an existing entry. *)
Definition open_fails (repo : string) (fs : Folder) : bool :=
  path_exists repo fs &&
  match entry_of repo fs with Some (WorkTree _ _) => false | _ => true end.

(** How a record may change while [print(L)] runs on the folder [fs]. *)
Definition orph_step (L : list string) (fs : Folder)
    (e e' : string * RepoInfo) : Prop :=
  fst e' = fst e /\
  (snd e' = snd e \/
   (In (fst e) L /\ open_fails (fst e) fs = true /\ snd e' = set_orphaned (snd e))).

Definition is_status (e : Event) : Prop :=
  match e with Status _ _ => True | _ => False end.

(** What [print(L)] may change between the states [s0] and [s]. *)
Definition print_frame (L : list string) (s0 s : St) : Prop :=
  Forall2 (orph_step L (fs (world s0))) (active_repos (self_ s0))
    (active_repos (self_ s)) /\
  with_active (self_ s) (active_repos (self_ s0)) = self_ s0 /\
  fs (world s) = fs (world s0) /\
  stdin (world s) = stdin (world s0) /\
  answers (world s) = answers (world s0) /\
  exists l, log (world s) = log (world s0) ++ l /\ Forall is_status l.

Lemma set_orphaned_idem (i : RepoInfo) :
  set_orphaned (set_orphaned i) = set_orphaned i.
Proof. destruct i; reflexivity. Qed.

Lemma print_frame_refl (L : list string) (s : St) : print_frame L s s.
Proof.
  unfold print_frame. repeat split.
  - induction (active_repos (self_ s)) as [| e d IH]; constructor; auto.
    split; [reflexivity | left; reflexivity].
  - destruct (self_ s); reflexivity.
  - exists []. rewrite app_nil_r. split; [reflexivity | constructor].
Qed.

Lemma orph_step_set (L : list string) (fs : Folder) (k : string) (i : RepoInfo)
    (d0 d : dict RepoInfo) :
  In k L -> open_fails k fs = true ->
  Forall2 (orph_step L fs) d0 d -> dict_get k d = Some i ->
  Forall2 (orph_step L fs) d0 (dict_set k (set_orphaned i) d).
Proof.
  intros HL Hf H. induction H as [| [k0 v0] [k1 v1] d0 d Hstep Hrest IH];
    simpl; [discriminate |].
  destruct Hstep as [Hk Hv]; simpl in Hk, Hv. subst k1.
  destruct (String.eqb_spec k k0) as [-> | Hne].
  - intros Hg. injection Hg as <-. constructor; [| exact Hrest].
    split; [reflexivity |]. right. simpl. split; [exact HL | split; [exact Hf |]].
    destruct Hv as [-> | [_ [_ ->]]]; [reflexivity | apply set_orphaned_idem].
  - intros Hg. constructor; [exact (conj eq_refl Hv) | apply IH, Hg].
Qed.

Lemma print_frame_emit (L : list string) (s0 s : St) (c : Color) (line : string) :
  print_frame L s0 s -> print_frame L s0 (snd (emit (Status c line) s)).
Proof.
  intros (Hd & Hself & Hfs & Hin & Hans & l & Hlog & Hl).
  repeat split; simpl; try assumption.
  exists (l ++ [Status c line]). rewrite Hlog, app_assoc. split; [reflexivity |].
  apply Forall_app. split; [exact Hl | constructor; [exact I | constructor]].
Qed.

Lemma print_frame_mark (L : list string) (s0 s : St) (repo : string) (i : RepoInfo) :
  In repo L -> open_fails repo (fs (world s0)) = true ->
  dict_get repo (active_repos (self_ s)) = Some i ->
  print_frame L s0 s ->
  print_frame L s0
    {| self_ := with_active (self_ s)
                  (dict_set repo (set_orphaned i) (active_repos (self_ s)));
       world := world s |}.
Proof.
  intros HL Hf Hg (Hd & Hself & Hfs & Hin & Hans & Hlog).
  unfold print_frame; simpl.
  split; [apply orph_step_set; assumption |].
  split; [rewrite <- Hself; destruct (self_ s); reflexivity |].
  auto.
Qed.
Lemma emit_ok (e : Event) (s : St) : emit e s = (Ok tt, snd (emit e s)).
Proof. reflexivity. Qed.

Ltac emit_case IH Hf :=
  cbn -[emit print_loop]; rewrite emit_ok; cbn -[emit print_loop];
  apply IH, print_frame_emit, Hf.

Ltac mark_case IH Hf Hfs Hp He HL L s0 s repo cur :=
  let i := fresh "i" in
  let Hg := fresh "Hg" in
  let Hm := fresh "Hm" in
  destruct (dict_get repo (active_repos (self_ s))) as [i |] eqn:Hg;
  cbn -[emit print_loop]; [| exact Hf];
  assert (Hm := print_frame_mark L s0 s repo i HL
                  ltac:(unfold open_fails; rewrite <- Hfs, Hp, He; reflexivity)
                  Hg Hf);
  let u := fresh "u" in
  let d := fresh "d" in
  destruct cur as [[u d] |]; cbn -[emit print_loop]; [| exact Hm];
  destruct u; [emit_case IH Hm | destruct d; [emit_case IH Hm |]];
  cbn -[emit print_loop]; rewrite dict_get_set, String.eqb_refl;
  cbn -[emit print_loop];
  destruct (orphaned (set_orphaned i)), (archived (set_orphaned i));
  emit_case IH Hm.

Lemma print_loop_frame (L : list string) (s0 : St) (rs : list string) :
  incl rs L -> forall cur s, print_frame L s0 s ->
  print_frame L s0 (snd (print_loop cur rs s)).
Proof.
  induction rs as [| repo rs IH]; intros Hincl cur s Hf; simpl; [exact Hf |].
  assert (HL : In repo L) by (apply Hincl; left; reflexivity).
  specialize (IH (fun x Hx => Hincl x (or_intror Hx))).
  assert (Hfs : fs (world s) = fs (world s0)) by apply Hf.
  unfold getitem, get_self, put_self, get_world, bind, ret, raise.
  destruct (path_exists repo (fs (world s))) eqn:Hp.
  - destruct (entry_of repo (fs (world s))) as [[u d|] |] eqn:He.
    + cbn -[emit print_loop]. destruct u.
      * rewrite emit_ok. cbn -[emit print_loop]. apply IH, print_frame_emit, Hf.
      * destruct d.
        -- rewrite emit_ok. cbn -[emit print_loop]. apply IH, print_frame_emit, Hf.
        -- destruct (dict_get repo (active_repos (self_ s))) as [i |] eqn:Hg; cbn -[emit print_loop]; [| exact Hf].
           destruct (orphaned i), (archived i); rewrite emit_ok; cbn -[emit print_loop];
             apply IH, print_frame_emit, Hf.
    + cbn -[emit print_loop]. mark_case IH Hf Hfs Hp He HL L s0 s repo cur.
    + cbn -[emit print_loop]. mark_case IH Hf Hfs Hp He HL L s0 s repo cur.
  - rewrite emit_ok. cbn -[emit print_loop]. apply IH, print_frame_emit, Hf.
Qed.

(** C5 (amended): [print(L)] changes no record except by setting the
    [orphaned] flag of a listed name whose directory exists but cannot be
    opened as a working tree; keys, order, archived flags and every other
    field stay as they were, as do the other attributes of the object, the
    folder and the standard input, and the only output is status lines.
    This holds also when [print] stops on an exception. *)
Theorem print_frame_thm (rs : list string) (s : St) :
  print_frame rs s (snd (print rs s)).
Proof.
  apply print_loop_frame; [intros x Hx; exact Hx | apply print_frame_refl].
Qed.

(** ** C6 *)

(** What a run of [clone] may change: the folder only gains entries, of
    pairwise distinct names that were absent before; the object and the
    clone outcomes are untouched. *)
Definition clone_grows (s s' : St) : Prop :=
  self_ s' = self_ s /\ clone_fails (world s') = clone_fails (world s) /\
  exists added, fs (world s') = fs (world s) ++ added /\
    NoDup (listdir added) /\
    (forall n, In n (listdir added) -> ~ In n (listdir (fs (world s)))).

(** A name [clone] leaves alone: excluded as archived, or already present. *)
Definition settled (self : Repos) (f : Folder) (repo : string) : bool :=
  if negb (include_archived self) then
    match dict_get repo (active_repos self) with
    | Some i => archived i || path_exists repo f
    | None => false
    end
  else path_exists repo f.

Definition appended (s : St) (l : list Event) : St :=
  {| self_ := self_ s; world := with_log (world s) (log (world s) ++ l) |}.

Definition no_clone (l : list Event) : Prop :=
  Forall (fun e => match e with CloneFrom _ _ => False | _ => True end) l.

Lemma clone_grows_refl (s : St) : clone_grows s s.
Proof.
  split; [reflexivity | split; [reflexivity |]].
  exists []. rewrite app_nil_r. repeat split; [constructor | intros n []].
Qed.

Lemma clone_grows_trans (s1 s2 s3 : St) :
  clone_grows s1 s2 -> clone_grows s2 s3 -> clone_grows s1 s3.
Proof.
  intros (Hs1 & Hc1 & a1 & Hf1 & Hn1 & Hd1) (Hs2 & Hc2 & a2 & Hf2 & Hn2 & Hd2).
  split; [congruence | split; [congruence |]].
  exists (a1 ++ a2). rewrite Hf2, Hf1, app_assoc. split; [reflexivity |].
  unfold listdir in *. rewrite map_app. split.
  - apply NoDup_app; [exact Hn1 | exact Hn2 |].
    intros n H1 H2. apply (Hd2 n H2). rewrite Hf1, map_app.
    apply in_or_app. right. exact H1.
  - intros n Hn. apply in_app_or in Hn as [Hn | Hn]; [exact (Hd1 n Hn) |].
    intros Hin. apply (Hd2 n Hn). rewrite Hf1, map_app. apply in_or_app. left. exact Hin.
Qed.

Lemma clone_grows_append (s : St) (repo : string) (e : Entry) (l : list Event) :
  path_exists repo (fs (world s)) = false ->
  clone_grows s {| self_ := self_ s;
                   world := {| fs := fs (world s) ++ [(repo, e)];
                               stdin := stdin (world s);
                               answers := answers (world s);
                               clone_fails := clone_fails (world s);
                               log := l |} |}.
Proof.
  intros Hp. split; [reflexivity | split; [reflexivity |]].
  exists [(repo, e)]. split; [reflexivity |]. split.
  - constructor; [intros [] | constructor].
  - intros n [<- | []]. apply mem_false_not_In. exact Hp.
Qed.

Lemma clone_grows_log (s : St) (l : list Event) :
  clone_grows s {| self_ := self_ s;
                   world := {| fs := fs (world s); stdin := stdin (world s);
                               answers := answers (world s);
                               clone_fails := clone_fails (world s);
                               log := l |} |}.
Proof.
  split; [reflexivity | split; [reflexivity |]].
  exists []. rewrite app_nil_r. repeat split; [constructor | intros n []].
Qed.

Lemma clone_one_grows (repo : string) (s : St) :
  clone_grows s (snd (clone_one repo s)).
Proof.
  unfold clone_one, getitem, emit, clone_from, get_self, get_world, put_world, with_log,
    bind, ret, raise.
  destruct (include_archived (self_ s)) eqn:Hi; cbn [negb].
  - cbn -[path_exists mem]. destruct (path_exists repo (fs (world s))) eqn:Hp; cbn -[path_exists mem].
    + apply clone_grows_log.
    + destruct (dict_get repo (active_repos (self_ s))) as [i |]; cbn -[path_exists mem];
        [| apply clone_grows_log].
      destruct (mem repo (clone_fails (world s))); cbn -[path_exists mem];
        [apply clone_grows_log | apply clone_grows_append, Hp].
  - destruct (dict_get repo (active_repos (self_ s))) as [i |] eqn:Hg;
      cbn -[path_exists mem]; [| apply clone_grows_refl].
    destruct (archived i); cbn -[path_exists mem]; [apply clone_grows_refl |].
    destruct (path_exists repo (fs (world s))) eqn:Hp; cbn -[path_exists mem];
      [apply clone_grows_log |].
    rewrite Hg. cbn -[path_exists mem].
    destruct (mem repo (clone_fails (world s))); cbn -[path_exists mem];
      [apply clone_grows_log | apply clone_grows_append, Hp].
Qed.

Lemma clone_loop_grows (rs : list string) (s : St) :
  clone_grows s (snd (clone_loop rs s)).
Proof.
  revert s. induction rs as [| repo rs IH]; intros s; [apply clone_grows_refl |].
  simpl. unfold bind.
  pose proof (clone_one_grows repo s) as H1.
  destruct (clone_one repo s) as [[[] | e] s1]; simpl in *;
    [eapply clone_grows_trans; [exact H1 | apply IH] | exact H1].
Qed.

Lemma path_exists_app (repo : string) (f a : Folder) :
  path_exists repo (f ++ a) = path_exists repo f || path_exists repo a.
Proof. unfold path_exists, listdir, mem. rewrite map_app, existsb_app. reflexivity. Qed.

Lemma settled_grows (s s' : St) (repo : string) :
  clone_grows s s' ->
  settled (self_ s) (fs (world s)) repo = true ->
  settled (self_ s') (fs (world s')) repo = true.
Proof.
  intros (Hself & _ & added & Hf & _) H. rewrite Hself, Hf. unfold settled in *.
  destruct (negb (include_archived (self_ s))).
  - destruct (dict_get repo (active_repos (self_ s))); [| discriminate].
    rewrite path_exists_app. apply orb_true_iff in H as [H | H];
      rewrite H; [reflexivity | rewrite orb_true_r; reflexivity].
  - rewrite path_exists_app, H. reflexivity.
Qed.

Lemma path_exists_added (repo : string) (f : Folder) (e : Entry) :
  path_exists repo (f ++ [(repo, e)]) = true.
Proof.
  rewrite path_exists_app. unfold path_exists, mem. simpl.
  rewrite String.eqb_refl, orb_true_r. reflexivity.
Qed.

Lemma clone_one_settles (repo : string) (s s' : St) :
  clone_one repo s = (Ok tt, s') -> settled (self_ s') (fs (world s')) repo = true.
Proof.
  unfold clone_one, getitem, emit, clone_from, get_self, get_world, put_world, with_log,
    bind, ret, raise.
  unfold settled.
  destruct (include_archived (self_ s)) eqn:Hi; cbn [negb].
  - cbn -[path_exists mem]. destruct (path_exists repo (fs (world s))) eqn:Hp;
      cbn -[path_exists mem].
    + intros H. injection H as <-. cbn -[path_exists mem]. rewrite Hi. exact Hp.
    + destruct (dict_get repo (active_repos (self_ s))) as [i |];
        cbn -[path_exists mem]; [| discriminate].
      destruct (mem repo (clone_fails (world s))); cbn -[path_exists mem];
        [discriminate |].
      intros H. injection H as <-. cbn -[path_exists mem]. rewrite Hi.
      apply path_exists_added.
  - destruct (dict_get repo (active_repos (self_ s))) as [i |] eqn:Hg;
      cbn -[path_exists mem]; [| discriminate].
    destruct (archived i) eqn:Ha; cbn -[path_exists mem].
    + intros H. injection H as <-. rewrite Hi, Hg, Ha. reflexivity.
    + destruct (path_exists repo (fs (world s))) eqn:Hp; cbn -[path_exists mem].
      * intros H. injection H as <-. cbn -[path_exists mem].
        rewrite Hi, Hg, Hp, orb_true_r. reflexivity.
      * rewrite Hg. cbn -[path_exists mem].
        destruct (mem repo (clone_fails (world s))); cbn -[path_exists mem];
          [discriminate |].
        intros H. injection H as <-. cbn -[path_exists mem].
        rewrite Hi, Hg, path_exists_added, orb_true_r. reflexivity.
Qed.

Lemma clone_loop_settles (rs : list string) (s s' : St) :
  clone_loop rs s = (Ok tt, s') ->
  forall repo, In repo rs -> settled (self_ s') (fs (world s')) repo = true.
Proof.
  revert s. induction rs as [| r rs IH]; intros s H repo Hin; [destruct Hin |].
  simpl in H. unfold bind in H.
  destruct (clone_one r s) as [[[] | e] s1] eqn:E; [| discriminate].
  destruct Hin as [<- | Hin].
  - apply (settled_grows s1 s'); [| exact (clone_one_settles _ _ _ E)].
    pose proof (clone_loop_grows rs s1) as G. rewrite H in G. exact G.
  - exact (IH s1 H repo Hin).
Qed.

Lemma appended_nil (s : St) : appended s [] = s.
Proof.
  destruct s as [self [f st a cf lg]]. unfold appended, with_log. simpl.
  rewrite app_nil_r. reflexivity.
Qed.

Lemma appended_appended (s : St) (l1 l2 : list Event) :
  appended (appended s l1) l2 = appended s (l1 ++ l2).
Proof.
  destruct s as [self [f st a cf lg]]. unfold appended, with_log. simpl.
  rewrite app_assoc. reflexivity.
Qed.

Lemma clone_one_noop (repo : string) (s : St) :
  settled (self_ s) (fs (world s)) repo = true ->
  exists l, clone_one repo s = (Ok tt, appended s l) /\ no_clone l.
Proof.
  unfold settled, clone_one, getitem, emit, clone_from, get_self, get_world,
    put_world, bind, ret, raise.
  destruct (include_archived (self_ s)) eqn:Hi; cbn [negb].
  - intros Hp. cbn -[path_exists mem appended]. rewrite Hp.
    cbn -[path_exists mem appended].
    exists [Out ""; Out ("Cloning " ++ repo ++ "...")].
    split; [| repeat constructor].
    unfold appended, with_log. simpl. rewrite <- app_assoc. reflexivity.
  - destruct (dict_get repo (active_repos (self_ s))) as [i |] eqn:Hg;
      [| discriminate].
    cbn -[path_exists mem appended].
    destruct (archived i) eqn:Ha; cbn -[path_exists mem appended].
    + intros _. exists []. rewrite appended_nil. split; [reflexivity | constructor].
    + intros Hp. rewrite Hp. cbn -[path_exists mem appended].
      exists [Out ""; Out ("Cloning " ++ repo ++ "...")].
      split; [| repeat constructor].
      unfold appended, with_log. simpl. rewrite <- app_assoc. reflexivity.
Qed.

Lemma clone_loop_noop (rs : list string) (s : St) :
  (forall repo, In repo rs -> settled (self_ s) (fs (world s)) repo = true) ->
  exists l, clone_loop rs s = (Ok tt, appended s l) /\ no_clone l.
Proof.
  revert s. induction rs as [| r rs IH]; intros s H.
  - exists []. rewrite appended_nil. split; [reflexivity | constructor].
  - destruct (clone_one_noop r s (H r (or_introl eq_refl))) as [l1 [E1 N1]].
    destruct (IH (appended s l1)) as [l2 [E2 N2]].
    + intros repo Hin. exact (H repo (or_intror Hin)).
    + exists (l1 ++ l2). simpl. unfold bind. rewrite E1, E2, appended_appended.
      split; [reflexivity | apply Forall_app; split; assumption].
Qed.

(** C6: [Repos.clone] never overwrites: the folder only gains entries whose
    names were absent when they were cloned (a name already present is
    skipped); and when a run completes, running [clone] again on the same
    list completes without cloning anything and leaves the folder and the
    object unchanged (it only prints the "Cloning" lines). *)
Theorem clone_idempotent (rs : list string) (s : St) :
  clone_grows s (snd (clone rs s)) /\
  (fst (clone rs s) = Ok tt ->
   exists l, clone rs (snd (clone rs s)) = (Ok tt, appended (snd (clone rs s)) l)
             /\ no_clone l).
Proof.
  split; [apply clone_loop_grows |].
  intros H. unfold clone in *.
  destruct (clone_loop rs s) as [r s1] eqn:E; simpl in H |- *. subst r.
  apply clone_loop_noop. exact (clone_loop_settles rs s s1 E).
Qed.

Definition clone_st : St :=
  {| self_ := self_of [("alpha", info_public false false);
                       ("beta", info_public true false);
                       ("gamma", info_public false false)] false false;
     world := world_of [("gamma", WorkTree false true)] |}.

Lemma clone_idempotent_witness :
  fst (clone ["alpha"; "beta"; "gamma"] clone_st) = Ok tt /\
  exists l, clone ["alpha"; "beta"; "gamma"] (snd (clone ["alpha"; "beta"; "gamma"] clone_st))
            = (Ok tt, appended (snd (clone ["alpha"; "beta"; "gamma"] clone_st)) l)
            /\ no_clone l.
Proof.
  assert (H : fst (clone ["alpha"; "beta"; "gamma"] clone_st) = Ok tt)
    by (vm_compute; reflexivity).
  exact (conj H (proj2 (clone_idempotent ["alpha"; "beta"; "gamma"] clone_st) H)).
Defined.

(** ** C7 and C8 *)

Definition rm_event (repo : string) : Event :=
  System ("rm -rf " ++ repo_folder ++ repo).

Definition is_system (e : Event) : bool :=
  match e with System _ => true | _ => false end.

(** The number of [os.system("rm -rf ...")] commands in a log. *)
Definition count_system (l : list Event) : nat := length (filter is_system l).

(** [choice.lower() == "y"] *)
Definition affirmative (choice : string) : bool := String.eqb (lower choice) "y".

(** The events of one prompted iteration, given the line typed. *)
Definition confirm_events (ra : string * string) : list Event :=
  Prompt ("Press 'y' to delete " ++ fst ra ++ "...")
  :: (if affirmative (snd ra) then [rm_event (fst ra)] else []).

Definition deleted_report (n : nat) : Event :=
  Out ("Deleted " ++ str_nat n ++ " orphaned repos.").

Lemma count_system_app (l1 l2 : list Event) :
  count_system (l1 ++ l2) = count_system l1 + count_system l2.
Proof. unfold count_system. rewrite filter_app, length_app. reflexivity. Qed.

Lemma delete_one_direct (yes : bool) (repo : string) (s : St) :
  yes || negb (interactive (self_ s)) = true ->
  exists s', delete_one yes repo s = (Ok tt, s') /\
    interactive (self_ s') = interactive (self_ s) /\
    orphaned_repos (self_ s') = orphaned_repos (self_ s) /\
    orphaned_repos_deleted (self_ s') = S (orphaned_repos_deleted (self_ s)) /\
    answers (world s') = answers (world s) /\
    log (world s') = log (world s) ++ [rm_event repo].
Proof.
  intros H. unfold delete_one, get_self, bind. rewrite H.
  eexists. split; [reflexivity |]. cbn. repeat split.
Qed.

Lemma delete_one_prompt (yes : bool) (repo : string) (s : St) (a : string)
    (rest : list string) :
  yes || negb (interactive (self_ s)) = false ->
  answers (world s) = a :: rest ->
  exists s', delete_one yes repo s = (Ok tt, s') /\
    interactive (self_ s') = interactive (self_ s) /\
    orphaned_repos (self_ s') = orphaned_repos (self_ s) /\
    orphaned_repos_deleted (self_ s') =
      orphaned_repos_deleted (self_ s) + (if affirmative a then 1 else 0) /\
    answers (world s') = rest /\
    log (world s') = log (world s) ++ confirm_events (repo, a).
Proof.
  intros H Ha. unfold delete_one, input, get_self, get_world, bind. rewrite H.
  cbn -[lower]. rewrite Ha. cbn -[lower].
  unfold confirm_events, affirmative. simpl fst; simpl snd.
  destruct (String.eqb (lower a) "y"); cbn -[lower].
  - eexists. split; [reflexivity |]. cbn. rewrite <- app_assoc.
    repeat split. lia.
  - eexists. split; [reflexivity |]. cbn. repeat split. lia.
Qed.

(** What an iteration, or the loop, may change: the interactivity and the
    orphan list stay, the log grows, and the deletion counter grows by the
    number of [rm -rf] commands run. *)
Definition delete_inv (s s' : St) : Prop :=
  interactive (self_ s') = interactive (self_ s) /\
  orphaned_repos (self_ s') = orphaned_repos (self_ s) /\
  exists l, log (world s') = log (world s) ++ l /\
    orphaned_repos_deleted (self_ s') =
      orphaned_repos_deleted (self_ s) + count_system l.

Lemma delete_one_inv (yes : bool) (repo : string) (s : St) :
  delete_inv s (snd (delete_one yes repo s)).
Proof.
  destruct (yes || negb (interactive (self_ s))) eqn:H.
  - destruct (delete_one_direct yes repo s H) as (s' & E & H1 & H2 & H3 & _ & H5).
    rewrite E. cbn [snd]. split; [exact H1 | split; [exact H2 |]].
    exists [rm_event repo]. split; [exact H5 |]. rewrite H3. unfold count_system. simpl. lia.
  - destruct (answers (world s)) as [| a rest] eqn:Ha.
    + unfold delete_one, input, get_self, get_world, bind. rewrite H.
      cbn -[lower]. rewrite Ha. cbn.
      split; [reflexivity | split; [reflexivity |]].
      exists [Prompt ("Press 'y' to delete " ++ repo ++ "...")].
      split; [reflexivity | unfold count_system; simpl; lia].
    + destruct (delete_one_prompt yes repo s a rest H Ha) as (s' & E & H1 & H2 & H3 & _ & H5).
      rewrite E. cbn [snd]. split; [exact H1 | split; [exact H2 |]].
      exists (confirm_events (repo, a)). split; [exact H5 |]. rewrite H3.
      unfold confirm_events, count_system. simpl. destruct (affirmative a); simpl; lia.
Qed.

Lemma delete_inv_trans (s1 s2 s3 : St) :
  delete_inv s1 s2 -> delete_inv s2 s3 -> delete_inv s1 s3.
Proof.
  intros (Hi1 & Ho1 & l1 & Hl1 & Hd1) (Hi2 & Ho2 & l2 & Hl2 & Hd2).
  split; [congruence | split; [congruence |]].
  exists (l1 ++ l2). rewrite Hl2, Hl1, app_assoc. split; [reflexivity |].
  rewrite Hd2, Hd1, count_system_app. lia.
Qed.

Lemma delete_loop_inv (yes : bool) (rs : list string) (s : St) :
  delete_inv s (snd (delete_loop yes rs s)).
Proof.
  revert s. induction rs as [| r rs IH]; intros s.
  - split; [reflexivity | split; [reflexivity |]].
    exists []. rewrite app_nil_r. split; [reflexivity | unfold count_system; simpl; lia].
  - simpl. unfold bind. pose proof (delete_one_inv yes r s) as H1.
    destruct (delete_one yes r s) as [[[] | e] s1]; simpl in *;
      [eapply delete_inv_trans; [exact H1 | apply IH] | exact H1].
Qed.

Lemma delete_loop_direct (yes : bool) (rs : list string) (s : St) :
  yes || negb (interactive (self_ s)) = true ->
  exists s', delete_loop yes rs s = (Ok tt, s') /\
    interactive (self_ s') = interactive (self_ s) /\
    orphaned_repos_deleted (self_ s') = orphaned_repos_deleted (self_ s) + length rs /\
    answers (world s') = answers (world s) /\
    log (world s') = log (world s) ++ map rm_event rs.
Proof.
  revert s. induction rs as [| r rs IH]; intros s H.
  - exists s. rewrite app_nil_r. simpl. repeat split. lia.
  - destruct (delete_one_direct yes r s H) as (s1 & E1 & Hi1 & _ & Hd1 & Ha1 & Hl1).
    destruct (IH s1 ltac:(rewrite Hi1; exact H)) as (s2 & E2 & Hi2 & Hd2 & Ha2 & Hl2).
    exists s2. simpl. unfold bind. rewrite E1, E2.
    split; [reflexivity |]. split; [congruence |]. split; [rewrite Hd2, Hd1; simpl; lia |].
    split; [congruence |]. rewrite Hl2, Hl1, <- app_assoc. reflexivity.
Qed.

Lemma delete_loop_prompt (yes : bool) (rs : list string) (s : St) :
  yes || negb (interactive (self_ s)) = false ->
  length rs <= length (answers (world s)) ->
  exists s', delete_loop yes rs s = (Ok tt, s') /\
    interactive (self_ s') = interactive (self_ s) /\
    orphaned_repos_deleted (self_ s') = orphaned_repos_deleted (self_ s) +
      length (filter (fun ra => affirmative (snd ra)) (combine rs (answers (world s)))) /\
    log (world s') = log (world s) ++
      concat (map confirm_events (combine rs (answers (world s)))).
Proof.
  revert s. induction rs as [| r rs IH]; intros s H Hlen.
  - exists s. rewrite app_nil_r. simpl. repeat split. lia.
  - destruct (answers (world s)) as [| a rest] eqn:Ha; [simpl in Hlen; lia |].
    destruct (delete_one_prompt yes r s a rest H Ha) as (s1 & E1 & Hi1 & _ & Hd1 & Ha1 & Hl1).
    destruct (IH s1 ltac:(rewrite Hi1; exact H) ltac:(rewrite Ha1; simpl in Hlen; lia))
      as (s2 & E2 & Hi2 & Hd2 & Hl2).
    exists s2. simpl. unfold bind. rewrite E1, E2. rewrite Ha1 in Hd2, Hl2.
    split; [reflexivity |]. split; [congruence |].
    split.
    + rewrite Hd2, Hd1. destruct (affirmative a); simpl; lia.
    + rewrite Hl2, Hl1, <- app_assoc. reflexivity.
Qed.

Lemma delete_eq (yes : bool) (s : St) :
  delete yes s =
  (match orphan_list (self_ s) (fs (world s)) with
   | [] => emit (Out "") ;;; emit (Out "No orphaned repos found.")
   | _ :: _ =>
       delete_loop yes (orphan_list (self_ s) (fs (world s))) ;;;
       self' <- get_self ;;
       emit (deleted_report (orphaned_repos_deleted self'))
   end)
    {| self_ := with_orphans (self_ s) (orphan_list (self_ s) (fs (world s)))
                  (orphaned_repos_deleted (self_ s));
       world := world s |}.
Proof. reflexivity. Qed.

(** C8: with a non-empty orphan list, when [--yes] is given or the process
    is not interactive, every orphan is removed with [rm -rf], in order and
    without any prompt (no input is read); otherwise each orphan is
    prompted for in turn and removed exactly when the line typed, lowered,
    is ["y"]. *)
Theorem delete_confirmation (yes : bool) (s : St)
    (Hne : orphan_list (self_ s) (fs (world s)) <> []) :
  ((yes = true \/ interactive (self_ s) = false) ->
   fst (delete yes s) = Ok tt /\
   answers (world (snd (delete yes s))) = answers (world s) /\
   log (world (snd (delete yes s))) =
     log (world s) ++ map rm_event (orphan_list (self_ s) (fs (world s)))
     ++ [deleted_report (orphaned_repos_deleted (self_ s) +
                         length (orphan_list (self_ s) (fs (world s))))])
  /\
  (yes = false -> interactive (self_ s) = true ->
   length (orphan_list (self_ s) (fs (world s))) <= length (answers (world s)) ->
   fst (delete yes s) = Ok tt /\
   log (world (snd (delete yes s))) =
     log (world s) ++
     concat (map confirm_events
                 (combine (orphan_list (self_ s) (fs (world s))) (answers (world s))))
     ++ [deleted_report (orphaned_repos_deleted (self_ s) +
           length (filter (fun ra => affirmative (snd ra))
                     (combine (orphan_list (self_ s) (fs (world s)))
                              (answers (world s)))))]).
Proof.
  rewrite delete_eq.
  set (s1 := {| self_ := with_orphans (self_ s) (orphan_list (self_ s) (fs (world s)))
                            (orphaned_repos_deleted (self_ s));
                world := world s |}).
  change (answers (world s)) with (answers (world s1)).
  change (log (world s)) with (log (world s1)).
  change (orphaned_repos_deleted (self_ s)) with (orphaned_repos_deleted (self_ s1)).
  assert (Hi : interactive (self_ s1) = interactive (self_ s)) by reflexivity.
  destruct (orphan_list (self_ s) (fs (world s))) as [| r rest]; [contradiction |].
  split.
  - intros Hc.
    assert (H : yes || negb (interactive (self_ s1)) = true)
      by (rewrite Hi; destruct Hc as [-> | ->]; [reflexivity | apply orb_true_r]).
    destruct (delete_loop_direct yes (r :: rest) s1 H) as (s2 & E & _ & Hd & Ha & Hl).
    unfold bind. rewrite E. cbn -[delete_loop deleted_report].
    rewrite Hd, Ha, Hl, <- app_assoc. repeat split.
  - intros Hy Hint Hlen.
    assert (H : yes || negb (interactive (self_ s1)) = false)
      by (rewrite Hi, Hy, Hint; reflexivity).
    destruct (delete_loop_prompt yes (r :: rest) s1 H Hlen) as (s2 & E & _ & Hd & Hl).
    unfold bind. rewrite E. cbn -[delete_loop deleted_report].
    rewrite Hd, Hl, <- app_assoc. repeat split.
Qed.

Definition orphans_st : St :=
  {| self_ := sample_self; world := world_of sample_fs |}.

Lemma delete_confirmation_witness :
  orphan_list (self_ orphans_st) (fs (world orphans_st)) <> [] /\
  fst (delete false orphans_st) = Ok tt /\
  log (world (snd (delete false orphans_st))) =
    map rm_event (orphan_list (self_ orphans_st) (fs (world orphans_st)))
    ++ [deleted_report (length (orphan_list (self_ orphans_st) (fs (world orphans_st))))].
Proof.
  assert (Hne : orphan_list (self_ orphans_st) (fs (world orphans_st)) <> [])
    by (vm_compute; discriminate).
  destruct (proj1 (delete_confirmation false orphans_st Hne)
                  (or_intror eq_refl)) as (H1 & _ & H3).
  exact (conj Hne (conj H1 H3)).
Defined.

(** C7: on a fresh object (no orphan collected yet, counter at zero), a
    run of [Repos.delete] that completes reports in its counter exactly
    the number of [rm -rf] commands it ran; with no orphan it prints
    "No orphaned repos found." and nothing else, and otherwise it ends with
    "Deleted n orphaned repos." for that number n (also when n is 0), a
    line that never equals the first one. *)
Theorem delete_report (yes : bool) (s : St)
    (Hfresh : orphaned_repos (self_ s) = [])
    (Hzero : orphaned_repos_deleted (self_ s) = 0)
    (Hok : fst (delete yes s) = Ok tt) :
  exists l, log (world (snd (delete yes s))) = log (world s) ++ l /\
    orphaned_repos_deleted (self_ (snd (delete yes s))) = count_system l /\
    (collect_orphans (self_ s) (fs (world s)) = [] ->
     l = [Out ""; Out "No orphaned repos found."]) /\
    (collect_orphans (self_ s) (fs (world s)) <> [] ->
     exists l', l = l' ++ [deleted_report (count_system l)]) /\
    (forall n, Out "No orphaned repos found." <> deleted_report n).
Proof.
  assert (Hdistinct : forall n, Out "No orphaned repos found." <> deleted_report n)
    by (intros n H; unfold deleted_report in H; simpl in H; congruence).
  assert (Ho : orphan_list (self_ s) (fs (world s)) = collect_orphans (self_ s) (fs (world s)))
    by (unfold orphan_list; rewrite Hfresh; reflexivity).
  revert Hok. rewrite delete_eq.
  set (s1 := {| self_ := with_orphans (self_ s) (orphan_list (self_ s) (fs (world s)))
                            (orphaned_repos_deleted (self_ s));
                world := world s |}).
  assert (Hl1 : log (world s1) = log (world s)) by reflexivity.
  assert (Hd1 : orphaned_repos_deleted (self_ s1) = 0) by exact Hzero.
  clearbody s1. rewrite Ho.
  destruct (collect_orphans (self_ s) (fs (world s))) as [| r rest].
  - intros _. exists [Out ""; Out "No orphaned repos found."].
    cbn. rewrite Hl1, <- app_assoc. split; [reflexivity |].
    split; [exact Hd1 |]. split; [reflexivity |]. split; [| exact Hdistinct].
    intros H; contradiction.
  - unfold bind. intros Hok.
    pose proof (delete_loop_inv yes (r :: rest) s1) as (_ & _ & l & Hl & Hd).
    destruct (delete_loop yes (r :: rest) s1) as [[[] | e] s2]; [| discriminate].
    cbn [snd] in Hl, Hd.
    exists (l ++ [deleted_report (orphaned_repos_deleted (self_ s2))]).
    cbn -[deleted_report count_system].
    rewrite count_system_app, Hd, Hd1.
    assert (Hc : count_system [deleted_report (0 + count_system l)] = 0) by reflexivity.
    rewrite Hc, Nat.add_0_r, Nat.add_0_l, Hl, Hl1, <- app_assoc.
    split; [reflexivity |]. split; [reflexivity |].
    split; [intros H; discriminate |]. split; [| exact Hdistinct].
    intros _. exists l. reflexivity.
Qed.

(** An interactive run where every prompt is declined. *)
Definition declined_st : St :=
  {| self_ := {| repos := []; interactive := true; include_archived := false;
                 active_repos := active_repos sample_self; missing_repos := [];
                 orphaned_repos := []; orphaned_repos_deleted := 0 |};
     world := {| fs := sample_fs; stdin := Some true; answers := ["n"; "no"];
                 clone_fails := []; log := [] |} |}.

Lemma delete_report_witness :
  orphaned_repos (self_ declined_st) = [] /\
  orphaned_repos_deleted (self_ declined_st) = 0 /\
  fst (delete false declined_st) = Ok tt /\
  exists l, log (world (snd (delete false declined_st))) = log (world declined_st) ++ l /\
    orphaned_repos_deleted (self_ (snd (delete false declined_st))) = count_system l /\
    (collect_orphans (self_ declined_st) (fs (world declined_st)) = [] ->
     l = [Out ""; Out "No orphaned repos found."]) /\
    (collect_orphans (self_ declined_st) (fs (world declined_st)) <> [] ->
     exists l', l = l' ++ [deleted_report (count_system l)]) /\
    (forall n, Out "No orphaned repos found." <> deleted_report n).
Proof.
  assert (H1 : orphaned_repos (self_ declined_st) = []) by reflexivity.
  assert (H2 : orphaned_repos_deleted (self_ declined_st) = 0) by reflexivity.
  assert (H3 : fst (delete false declined_st) = Ok tt) by (vm_compute; reflexivity).
  exact (conj H1 (conj H2 (conj H3 (delete_report false declined_st H1 H2 H3)))).
Defined.

(** ** C9 *)

(** A run whose standard input is not a terminal ([sys.stdin] is [None]). *)
Definition ntty_st : St := {| self_ := sample_self; world := world_of [] |}.

(** C9 fails: the command line [--bogus -h] has the unrecognised argument
    [--bogus], standard input is not a terminal, and still the run aborts:
    argparse itself prints the help and exits with status 0. With
    [--bogus --yes=1] it prints the usage and exits with status 2. *)
Lemma parse_args_exit_counterexample :
  stdin_isatty (world ntty_st) = false /\
  ~ In "--bogus" (["-a"; "-c"; "-d"; "-m"; "-y"; "-h"; "--help"] ++ long_flags) /\
  parse_args known_args ["--bogus"; "-h"] ntty_st =
    (Raise (SystemExit 0), appended ntty_st [Help]) /\
  fst (parse_args known_args ["--bogus"; "--yes=1"] ntty_st) = Raise (SystemExit 2).
Proof.
  split; [reflexivity |]. split.
  - simpl. intros H. repeat destruct H as [H | H]; try discriminate; exact H.
  - split; vm_compute; reflexivity.
Qed.

(** C9 (amended): when argparse accepts the command line and some
    arguments are unrecognised, [parse_args] prints the help and exits
    with status 1 when standard input is a terminal, and otherwise returns
    the parsed namespace without any effect; when argparse exits by itself
    (help requested, malformed option), the run aborts with argparse's
    status after its output, whether or not standard input is a
    terminal. This holds for every behaviour of [parse_known_args]. *)
Theorem parse_args_unknown
    (parse_known_args : list string -> ParseResult)
    (argv : list string) (s : St) :
  (forall ns unk, parse_known_args argv = Known ns unk -> unk <> [] ->
   (stdin_isatty (world s) = true ->
    fst (parse_args parse_known_args argv s) = Raise (SystemExit 1) /\
    log (world (snd (parse_args parse_known_args argv s))) = log (world s) ++ [Help])
   /\
   (stdin_isatty (world s) = false ->
    parse_args parse_known_args argv s = (Ok ns, s)))
  /\
  (forall code out, parse_known_args argv = ParserExit code out ->
   parse_args parse_known_args argv s = (Raise (SystemExit code), appended s [out])).
Proof.
  unfold parse_args. split.
  - intros ns unk E Hunk. rewrite E.
    destruct unk as [| u unk]; [contradiction |].
    unfold bind, get_world. cbn -[stdin_isatty].
    split; intros H; rewrite H; [split |]; reflexivity.
  - intros code out E. rewrite E. reflexivity.
Qed.

Definition tty_st : St :=
  {| self_ := sample_self;
     world := {| fs := []; stdin := Some true; answers := []; clone_fails := [];
                 log := [] |} |}.

Lemma parse_args_unknown_witness :
  known_args ["-d"; "--bogus"] = Known (mkNamespace false false true false false) ["--bogus"] /\
  fst (parse_args known_args ["-d"; "--bogus"] tty_st) = Raise (SystemExit 1) /\
  known_args ["--bogus"; "-h"] = ParserExit 0 Help /\
  parse_args known_args ["--bogus"; "-h"] ntty_st =
    (Raise (SystemExit 0), appended ntty_st [Help]).
Proof.
  assert (H1 : known_args ["-d"; "--bogus"] =
               Known (mkNamespace false false true false false) ["--bogus"]) by reflexivity.
  assert (H2 : ["--bogus"] <> []) by discriminate.
  assert (H3 : known_args ["--bogus"; "-h"] = ParserExit 0 Help) by reflexivity.
  split; [exact H1 |].
  split; [exact (proj1 (proj1 (proj1 (parse_args_unknown known_args ["-d"; "--bogus"] tty_st)
                                   _ _ H1 H2) eq_refl)) |].
  split; [exact H3 |].
  exact (proj2 (parse_args_unknown known_args ["--bogus"; "-h"] ntty_st) _ _ H3).
Defined.

(** * Further properties of the code *)

(** ** [Repos.get] *)

(** The last repository of [rs] owned by [u] and named [k]. *)
Fixpoint last_owned (u k : string) (rs : list GhRepo) : option GhRepo :=
  match rs with
  | [] => None
  | r :: rs' =>
      match last_owned u k rs' with
      | Some r' => Some r'
      | None =>
          if String.eqb (gh_owner_login r) u && String.eqb (gh_name r) k
          then Some r else None
      end
  end.

Lemma dict_keys_set {V} (k : string) (v : V) (d : dict V) :
  NoDup (dict_keys d) -> NoDup (dict_keys (dict_set k v d)) /\
  (forall x, In x (dict_keys (dict_set k v d)) <-> x = k \/ In x (dict_keys d)).
Proof.
  unfold dict_keys. induction d as [| [k' v'] d IH]; simpl; intros Hn.
  - split; [exact (NoDup_cons k (fun H : In k [] => H) (NoDup_nil _)) |
      intros x; simpl; split; intros [H | []]; left; symmetry; exact H].
  - inversion Hn as [| ? ? Hnot Hn']; subst.
    destruct (String.eqb_spec k k') as [-> | Hne]; simpl.
    + split; [exact Hn |].
      intros x; split; [intros H; right; exact H | intros [-> | H]; [left; reflexivity | exact H]].
    + destruct (IH Hn') as [IH1 IH2]. split.
      * constructor; [| exact IH1]. rewrite IH2. intros [-> | H]; [congruence | contradiction].
      * intros x. rewrite IH2. tauto.
Qed.

Lemma get_loop_lookup (u : string) (rs : list GhRepo) (d : dict RepoInfo) (k : string) :
  dict_get k (get_loop u rs d) =
  match last_owned u k rs with
  | Some r => Some (info_of r)
  | None =>
      match dict_get k d with
      | Some i => Some i
      | None => None
      end
  end.
Proof.
  revert d. induction rs as [| r rs IH]; intros d; simpl.
  - destruct (dict_get k d); reflexivity.
  - rewrite IH. destruct (last_owned u k rs) as [r' |]; [reflexivity |].
    destruct (String.eqb (gh_owner_login r) u) eqn:Ho; simpl.
    + rewrite dict_get_set. destruct (String.eqb_spec k (gh_name r)) as [-> | Hne].
      * rewrite String.eqb_refl. reflexivity.
      * destruct (String.eqb_spec (gh_name r) k); [congruence |].
        destruct (dict_get k d); reflexivity.
    + destruct (dict_get k d); reflexivity.
Qed.

Lemma get_loop_keys_nodup (u : string) (rs : list GhRepo) (d : dict RepoInfo) :
  NoDup (dict_keys d) -> NoDup (dict_keys (get_loop u rs d)).
Proof.
  revert d. induction rs as [| r rs IH]; intros d Hn; simpl; [exact Hn |].
  apply IH. destruct (String.eqb (gh_owner_login r) u); [apply dict_keys_set, Hn | exact Hn].
Qed.

(** [Repos.get] on a fresh object: the record stored under a name is built
    from the last repository of the listing with that name owned by [u]
    (with the [orphaned] flag false), a name with no such repository has
    no record, and the keys are pairwise distinct. *)
Theorem get_records (u : string) (remote : list GhRepo) (incl inter : bool)
    (fs0 : Folder) (k : string) :
  dict_get k (active_repos (repos_get u (repos_init remote incl inter fs0))) =
    option_map info_of (last_owned u k remote) /\
  NoDup (dict_keys (active_repos (repos_get u (repos_init remote incl inter fs0)))).
Proof.
  split.
  - simpl. rewrite get_loop_lookup. destruct (last_owned u k remote); reflexivity.
  - apply get_loop_keys_nodup. constructor.
Qed.

(** ** [Repos.missing] and the orphans of [Repos.delete] list no name twice *)

Lemma missing_loop_sub (incl : bool) (d : dict RepoInfo) (fs : Folder)
    (keys : list string) (x : string) :
  In x (missing_loop incl d fs keys) -> In x keys.
Proof. rewrite missing_loop_spec. intros [H _]. exact H. Qed.

Lemma missing_loop_nodup (incl : bool) (d : dict RepoInfo) (fs : Folder)
    (keys : list string) :
  NoDup keys -> NoDup (missing_loop incl d fs keys).
Proof.
  induction keys as [| k ks IH]; intros Hn; simpl; [constructor |].
  inversion Hn as [| ? ? Hnot Hn']; subst.
  destruct (dict_get k d) as [info |]; [| apply IH, Hn'].
  destruct (negb incl && archived info); [apply IH, Hn' |].
  assert (Hrest : ~ In k (missing_loop incl d fs ks))
    by (intros H; apply Hnot, (missing_loop_sub incl d fs), H).
  destruct (path_exists k fs); simpl.
  - destruct (orphaned info); simpl; [constructor; [exact Hrest | apply IH, Hn'] | apply IH, Hn'].
  - rewrite andb_false_r. simpl. constructor; [exact Hrest | apply IH, Hn'].
Qed.

(** When the inventory has distinct keys (as every dictionary has), the
    list computed by [Repos.missing] names each repository at most once. *)
Theorem missing_nodup (self : Repos) (fs : Folder)
    (Hkeys : NoDup (dict_keys (active_repos self))) :
  NoDup (missing self fs).
Proof. apply missing_loop_nodup, Hkeys. Qed.

Lemma missing_nodup_witness :
  NoDup (dict_keys (active_repos printed_self)) /\ NoDup (missing printed_self broken_fs).
Proof.
  assert (H : NoDup (dict_keys (active_repos printed_self))).
  { vm_compute. constructor; [simpl; intros [H | []]; discriminate | ].
    constructor; [intros [] | constructor]. }
  exact (conj H (missing_nodup printed_self broken_fs H)).
Defined.

(** When the folder lists each entry once and the inventory has distinct
    keys, the orphans collected by [Repos.delete] are pairwise distinct: no
    directory is prompted for or removed twice. *)
Theorem collect_orphans_nodup (self : Repos) (fs : Folder)
    (Hfs : NoDup (listdir fs)) (Hkeys : NoDup (dict_keys (active_repos self))) :
  NoDup (collect_orphans self fs).
Proof.
  unfold collect_orphans. apply NoDup_app.
  - apply NoDup_filter, Hfs.
  - apply NoDup_filter, Hkeys.
  - intros a H1 H2. unfold orphans_unknown, orphans_archived in *.
    apply filter_In in H1 as [_ H1]. apply filter_In in H2 as [H2 _].
    apply andb_true_iff in H1 as [_ H1]. apply negb_true_iff, mem_false_not_In in H1.
    contradiction.
Qed.

Lemma collect_orphans_nodup_witness :
  NoDup (listdir sample_fs) /\ NoDup (dict_keys (active_repos sample_self)) /\
  NoDup (collect_orphans sample_self sample_fs).
Proof.
  assert (H1 : NoDup (listdir sample_fs)).
  { vm_compute. constructor; [intros [H | []]; discriminate | constructor; [intros [] | constructor]]. }
  assert (H2 : NoDup (dict_keys (active_repos sample_self))).
  { vm_compute. constructor; [intros [H | []]; discriminate | constructor; [intros [] | constructor]]. }
  exact (conj H1 (conj H2 (collect_orphans_nodup sample_self sample_fs H1 H2))).
Defined.

(** ** Classification of [main] into public and private repositories *)

(** Whether the loop of [main] files [repo] under public ([pub = true]) or
    private ([pub = false]). *)
Definition classified (incl : bool) (d : dict RepoInfo) (pub : bool) (repo : string) : bool :=
  negb (mem repo ignored_folders) &&
  match dict_get repo d with
  | Some info =>
      negb (negb incl && archived info) &&
      Bool.eqb (String.eqb (visibility info) "public") pub
  | None => false
  end.

Lemma classify_loop_filter (incl : bool) (d : dict RepoInfo) (keys : list string) :
  fst (classify_loop incl d keys) = filter (classified incl d true) keys /\
  snd (classify_loop incl d keys) = filter (classified incl d false) keys.
Proof.
  induction keys as [| k ks IH]; [split; reflexivity |].
  cbn [classify_loop filter]. destruct (classify_loop incl d ks) as [pub priv].
  destruct IH as [IHp IHq]. cbn [fst snd] in IHp, IHq.
  rewrite <- IHp, <- IHq. unfold classified.
  destruct (mem k ignored_folders); cbn [negb andb fst snd]; [split; reflexivity |].
  destruct (dict_get k d) as [info |]; cbn [fst snd]; [| split; reflexivity].
  destruct (negb incl && archived info); cbn [negb andb fst snd]; [split; reflexivity |].
  destruct (String.eqb (visibility info) "public"); cbn [Bool.eqb fst snd]; split; reflexivity.
Qed.

Lemma classified_spec (incl : bool) (d : dict RepoInfo) (pub : bool) (x : string) :
  classified incl d pub x = true <->
  ~ In x ignored_folders /\
  exists info, dict_get x d = Some info /\ (incl = true \/ archived info = false) /\
    (visibility info = "public" <-> pub = true).
Proof.
  unfold classified. rewrite andb_true_iff, negb_true_iff. split.
  - intros [Hm H]. split; [apply mem_false_not_In, Hm |].
    destruct (dict_get x d) as [info |]; [| discriminate].
    apply andb_true_iff in H as [Ha Hv]. exists info. split; [reflexivity |]. split.
    + destruct incl; [left; reflexivity | right; apply negb_true_iff in Ha; exact Ha].
    + apply Bool.eqb_prop in Hv. rewrite <- Hv, String.eqb_eq. tauto.
  - intros [Hn [info [Hg [Hk Hv]]]]. split.
    + destruct (mem x ignored_folders) eqn:E; [apply mem_In in E; contradiction | reflexivity].
    + rewrite Hg. apply andb_true_iff. split.
      * destruct Hk as [-> | ->]; [reflexivity | rewrite andb_false_r; reflexivity].
      * apply Bool.eqb_true_iff. destruct pub.
        -- apply String.eqb_eq, Hv. reflexivity.
        -- apply String.eqb_neq. intros H. apply Hv in H. discriminate.
Qed.

(** The classification in [main]: a name is listed as public exactly when it
    is a key of the inventory outside the ignore-set, kept by the archive
    filter, with visibility ["public"]; as private exactly when the same
    holds with any other visibility. No name is in both lists and, the keys
    of a dictionary being distinct, neither list repeats a name. *)
Theorem classify_spec (all_repos : dict RepoInfo) (incl : bool) (x : string)
    (Hkeys : NoDup (dict_keys all_repos)) :
  (In x (fst (classify all_repos incl)) <->
   ~ In x ignored_folders /\
   exists info, dict_get x all_repos = Some info /\
     (incl = true \/ archived info = false) /\ visibility info = "public") /\
  (In x (snd (classify all_repos incl)) <->
   ~ In x ignored_folders /\
   exists info, dict_get x all_repos = Some info /\
     (incl = true \/ archived info = false) /\ visibility info <> "public") /\
  ~ (In x (fst (classify all_repos incl)) /\ In x (snd (classify all_repos incl))) /\
  NoDup (fst (classify all_repos incl)) /\ NoDup (snd (classify all_repos incl)).
Proof.
  unfold classify. destruct (classify_loop_filter incl all_repos (dict_keys all_repos)) as [Hp Hq].
  rewrite Hp, Hq, !filter_In, !classified_spec.
  assert (Hk : forall info, dict_get x all_repos = Some info -> In x (dict_keys all_repos))
    by (intros info H; apply dict_get_keys; exists info; exact H).
  split; [| split; [| split; [| split; apply NoDup_filter, Hkeys]]].
  - split.
    + intros [_ [Hn [i [Hi [Ha Hv]]]]]. split; [exact Hn |].
      exists i. split; [exact Hi | split; [exact Ha | apply Hv; reflexivity]].
    + intros [Hn [i [Hi [Ha Hv]]]]. split; [exact (Hk i Hi) |]. split; [exact Hn |].
      exists i. split; [exact Hi | split; [exact Ha | split; [reflexivity | intros _; exact Hv]]].
  - split.
    + intros [_ [Hn [i [Hi [Ha Hv]]]]]. split; [exact Hn |].
      exists i. split; [exact Hi | split; [exact Ha | intros H; apply Hv in H; discriminate]].
    + intros [Hn [i [Hi [Ha Hv]]]]. split; [exact (Hk i Hi) |]. split; [exact Hn |].
      exists i. split; [exact Hi | split; [exact Ha | split; [intros H; contradiction | discriminate]]].
  - intros [[_ [_ [i [Hi [_ Hv1]]]]] [_ [_ [j [Hj [_ Hv2]]]]]].
    rewrite Hi in Hj. injection Hj as <-.
    assert (H : visibility i = "public") by (apply Hv1; reflexivity).
    apply Hv2 in H. discriminate.
Qed.

Lemma classify_spec_witness :
  NoDup (dict_keys (active_repos sample_self)) /\
  In "alpha" (fst (classify (active_repos sample_self) false)).
Proof.
  assert (H : NoDup (dict_keys (active_repos sample_self))).
  { vm_compute. constructor; [intros [H | []]; discriminate | constructor; [intros [] | constructor]]. }
  split; [exact H |].
  apply (proj2 (proj1 (classify_spec (active_repos sample_self) false "alpha" H))).
  split; [vm_compute; intros [H1 | [H1 | [H1 | []]]]; discriminate |].
  exists (info_public false false). split; [reflexivity | split; [right; reflexivity | reflexivity]].
Defined.

(** A listing with two repositories of [dg] and one of someone else. *)
Definition sample_remote : list GhRepo :=
  [mkGhRepo "alpha" "dg" false "https://github.com/dg/alpha.git"
     "git@github.com:dg/alpha.git" "public";
   mkGhRepo "beta" "dg" true "https://github.com/dg/beta.git"
     "git@github.com:dg/beta.git" "private";
   mkGhRepo "tool" "other" false "https://github.com/other/tool.git"
     "git@github.com:other/tool.git" "public"].

(** ** Relation with the earlier script [repos.py] *)

Lemma legacy_missing_loop (d : dict RepoInfo) (fs : Folder) (keys : list string)
    (Hno : none_orphaned d) (Hsub : forall k, In k keys -> In k (dict_keys d)) :
  filter (fun repo => negb (path_exists repo fs)) keys = missing_loop true d fs keys.
Proof.
  induction keys as [| k ks IH]; simpl; [reflexivity |].
  rewrite IH by (intros k' H; apply Hsub; right; exact H).
  destruct (proj2 (dict_get_keys k d) (Hsub k (or_introl eq_refl))) as [info Hg].
  rewrite Hg, (Hno k info Hg). simpl.
  destruct (path_exists k fs); reflexivity.
Qed.

(** With [--archived] and before any [print] marks a record orphaned, the
    new script computes the same missing list as [MissingRepos.missing_repos]
    of the earlier script and the same orphans as [DeleteRepos.delete_repos]
    of the earlier script (local entries outside the ignore-set that are not
    keys). *)
Theorem legacy_agrees (self : Repos) (fs : Folder)
    (Hincl : include_archived self = true)
    (Hno : none_orphaned (active_repos self)) :
  Legacy.missing_repos (active_repos self) fs = missing self fs /\
  Legacy.orphaned_repos (active_repos self) fs = collect_orphans self fs.
Proof.
  split.
  - unfold Legacy.missing_repos, missing. rewrite Hincl.
    apply legacy_missing_loop; [exact Hno | tauto].
  - unfold collect_orphans, orphans_archived. rewrite Hincl. simpl.
    rewrite filter_false, app_nil_r. reflexivity.
Qed.

Lemma legacy_agrees_witness :
  include_archived (repos_get "dg" (repos_init sample_remote true false [])) = true /\
  none_orphaned (active_repos (repos_get "dg" (repos_init sample_remote true false []))) /\
  Legacy.missing_repos (active_repos (repos_get "dg" (repos_init sample_remote true false [])))
    sample_fs =
    missing (repos_get "dg" (repos_init sample_remote true false [])) sample_fs.
Proof.
  assert (H1 : include_archived (repos_get "dg" (repos_init sample_remote true false [])) = true)
    by reflexivity.
  pose proof (fetched_none_orphaned "dg" sample_remote true false []) as H2.
  exact (conj H1 (conj H2 (proj1 (legacy_agrees _ sample_fs H1 H2)))).
Defined.

(** ** What [Repos.delete] removes *)

(** The folder after a step may only lose entries named in [rs]. *)
Definition removes_only (rs : list string) (s s' : St) : Prop :=
  (forall e, In e (fs (world s')) -> In e (fs (world s))) /\
  (forall e, In e (fs (world s)) -> ~ In (fst e) rs -> In e (fs (world s'))).

Lemma removes_only_refl (rs : list string) (s : St) : removes_only rs s s.
Proof. split; intros e H; [exact H | intros _; exact H]. Qed.

Lemma removes_only_trans (rs : list string) (s1 s2 s3 : St) :
  removes_only rs s1 s2 -> removes_only rs s2 s3 -> removes_only rs s1 s3.
Proof.
  intros [A1 B1] [A2 B2]. split; intros e H.
  - apply A1, A2, H.
  - intros Hn. apply B2, Hn. apply B1, Hn. exact H.
Qed.

Lemma removes_only_filter (rs : list string) (repo : string) (s s' : St) :
  In repo rs ->
  fs (world s') = filter (fun e => negb (String.eqb (fst e) repo)) (fs (world s)) ->
  removes_only rs s s'.
Proof.
  intros Hr Hf. unfold removes_only. rewrite Hf. split; intros e H.
  - apply filter_In in H as [H _]. exact H.
  - intros Hn. apply filter_In. split; [exact H |].
    cbv beta. destruct (String.eqb_spec (fst e) repo) as [Heq | _];
      [rewrite Heq in Hn; contradiction | reflexivity].
Qed.

Lemma removes_only_same (rs : list string) (s s' : St) :
  fs (world s') = fs (world s) -> removes_only rs s s'.
Proof. intros Hf. unfold removes_only. rewrite Hf. split; intros e H; [exact H | intros _; exact H]. Qed.

Lemma delete_one_removes (yes : bool) (repo : string) (rs : list string) (s : St) :
  In repo rs -> removes_only rs s (snd (delete_one yes repo s)).
Proof.
  intros Hr.
  unfold delete_one, input, incr_deleted, rm_rf, emit, get_self, put_self, get_world,
    put_world, bind, ret, raise.
  destruct (yes || negb (interactive (self_ s))).
  - cbn -[lower]. apply (removes_only_filter rs repo); [exact Hr | reflexivity].
  - cbn -[lower]. destruct (answers (world s)) as [| a rest];
      cbn -[lower]; [apply removes_only_same; reflexivity |].
    destruct (String.eqb (lower a) "y"); cbn -[lower];
      [apply (removes_only_filter rs repo); [exact Hr | reflexivity] |
       apply removes_only_same; reflexivity].
Qed.

Lemma delete_loop_removes (yes : bool) (rs all : list string) (s : St) :
  incl rs all -> removes_only all s (snd (delete_loop yes rs s)).
Proof.
  revert s. induction rs as [| r rs IH]; intros s Hi; [apply removes_only_refl |].
  simpl. unfold bind. pose proof (delete_one_removes yes r all s (Hi r (or_introl eq_refl))) as H1.
  destruct (delete_one yes r s) as [[[] | e] s1]; cbn [snd] in H1 |- *; [| exact H1].
  eapply removes_only_trans; [exact H1 |].
  apply IH. intros x Hx. apply Hi. right. exact Hx.
Qed.

(** [Repos.delete] removes nothing but orphans: whatever the mode and the
    answers typed, and also when it stops on an exception, every entry
    left in the folder was there before, and every entry whose name is not
    in the orphan list (the names already in [self.orphaned_repos] and the
    ones collected by the two loops) is still there. This is stated for
    orphan names that the shell passes to [rm -rf] as one plain word
    ([shell_safe]); for other names the unquoted command line removes
    other paths. *)
Theorem delete_removes_only_orphans (yes : bool) (s : St)
    (Hsafe : forallb shell_safe (orphan_list (self_ s) (fs (world s))) = true) :
  removes_only (orphan_list (self_ s) (fs (world s))) s (snd (delete yes s)).
Proof.
  rewrite delete_eq.
  set (orph := orphan_list (self_ s) (fs (world s))).
  set (s1 := {| self_ := with_orphans (self_ s) orph (orphaned_repos_deleted (self_ s));
                world := world s |}).
  assert (H1 : removes_only orph s s1) by (apply removes_only_same; reflexivity).
  assert (Hl : removes_only orph s1 (snd (delete_loop yes orph s1)))
    by (apply delete_loop_removes; intros x Hx; exact Hx).
  clearbody s1 orph. destruct orph as [| r rest].
  - eapply removes_only_trans; [exact H1 | apply removes_only_same; reflexivity].
  - unfold bind.
    destruct (delete_loop yes (r :: rest) s1) as [[[] | e] s2]; cbn [snd] in Hl;
      [| exact (removes_only_trans _ _ _ _ H1 Hl)].
    eapply removes_only_trans; [exact H1 |].
    eapply removes_only_trans; [exact Hl | apply removes_only_same; reflexivity].
Qed.




(** An interactive session where [alpha] is kept and [beta] (archived)
    and [ghost] (unknown) are orphans. *)
Definition mixed_st : St :=
  {| self_ := self_of (active_repos sample_self) false true;
     world := world_of (("alpha", WorkTree true false) :: sample_fs) |}.

Lemma delete_removes_only_orphans_witness :
  forallb shell_safe (orphan_list (self_ mixed_st) (fs (world mixed_st))) = true /\
  removes_only (orphan_list (self_ mixed_st) (fs (world mixed_st)))
    mixed_st (snd (delete false mixed_st)).
Proof.
  assert (H : forallb shell_safe (orphan_list (self_ mixed_st) (fs (world mixed_st))) = true)
    by (vm_compute; reflexivity).
  exact (conj H (delete_removes_only_orphans false mixed_st H)).
Defined.

(** Names with a space or a glob character are not [shell_safe]. *)
Lemma shell_safe_examples :
  shell_safe "tmp alpha" = false /\ shell_safe "*" = false /\ shell_safe ".." = false /\
  shell_safe "beta" = true /\ shell_safe "my-repo_2.0" = true.
Proof. vm_compute. repeat split. Qed.


(** ** What [Repos.clone] creates *)

(** The folder only gains entries for names of [rs] that are keys kept by
    the archive filter and whose clone does not fail. *)
Definition clone_adds (rs : list string) (s s' : St) : Prop :=
  self_ s' = self_ s /\ clone_fails (world s') = clone_fails (world s) /\
  exists added, fs (world s') = fs (world s) ++ added /\
    forall n, In n (listdir added) ->
      In n rs /\ mem n (clone_fails (world s)) = false /\
      exists i, dict_get n (active_repos (self_ s)) = Some i /\
        (include_archived (self_ s) = true \/ archived i = false).

Lemma clone_adds_same (rs : list string) (s s' : St) :
  self_ s' = self_ s -> clone_fails (world s') = clone_fails (world s) ->
  fs (world s') = fs (world s) -> clone_adds rs s s'.
Proof.
  intros H1 H2 H3. split; [exact H1 | split; [exact H2 |]].
  exists []. rewrite app_nil_r. split; [exact H3 | intros n []].
Qed.

Lemma clone_adds_trans (rs : list string) (s1 s2 s3 : St) :
  clone_adds rs s1 s2 -> clone_adds rs s2 s3 -> clone_adds rs s1 s3.
Proof.
  intros (Hs1 & Hc1 & a1 & Hf1 & Ha1) (Hs2 & Hc2 & a2 & Hf2 & Ha2).
  split; [congruence | split; [congruence |]].
  exists (a1 ++ a2). rewrite Hf2, Hf1, app_assoc. split; [reflexivity |].
  intros n Hn. unfold listdir in Hn. rewrite map_app in Hn.
  apply in_app_or in Hn as [Hn | Hn]; [exact (Ha1 n Hn) |].
  rewrite <- Hs1, <- Hc1. exact (Ha2 n Hn).
Qed.

Lemma clone_adds_incl (rs rs' : list string) (s s' : St) :
  incl rs rs' -> clone_adds rs s s' -> clone_adds rs' s s'.
Proof.
  intros Hi (Hs & Hc & a & Hf & Ha). split; [exact Hs | split; [exact Hc |]].
  exists a. split; [exact Hf |]. intros n Hn.
  destruct (Ha n Hn) as [H1 H2]. split; [apply Hi, H1 | exact H2].
Qed.

Lemma clone_one_adds (repo : string) (s : St) :
  clone_adds [repo] s (snd (clone_one repo s)).
Proof.
  unfold clone_one, getitem, emit, clone_from, get_self, get_world, put_world, with_log,
    bind, ret, raise.
  destruct (include_archived (self_ s)) eqn:Hi; cbn [negb].
  - cbn -[path_exists mem]. destruct (path_exists repo (fs (world s))); cbn -[path_exists mem].
    + apply clone_adds_same; reflexivity.
    + destruct (dict_get repo (active_repos (self_ s))) as [i |] eqn:Hg;
        cbn -[path_exists mem]; [| apply clone_adds_same; reflexivity].
      destruct (mem repo (clone_fails (world s))) eqn:Hc; cbn -[path_exists mem];
        [apply clone_adds_same; reflexivity |].
      split; [reflexivity | split; [reflexivity |]].
      exists [(repo, WorkTree false false)]. split; [reflexivity |].
      intros n [<- | []]. split; [left; reflexivity | split; [exact Hc |]].
      exists i. split; [exact Hg | left; exact Hi].
  - destruct (dict_get repo (active_repos (self_ s))) as [i |] eqn:Hg;
      cbn -[path_exists mem]; [| apply clone_adds_same; reflexivity].
    destruct (archived i) eqn:Ha; cbn -[path_exists mem];
      [apply clone_adds_same; reflexivity |].
    destruct (path_exists repo (fs (world s))); cbn -[path_exists mem];
      [apply clone_adds_same; reflexivity |].
    rewrite Hg. cbn -[path_exists mem].
    destruct (mem repo (clone_fails (world s))) eqn:Hc; cbn -[path_exists mem];
      [apply clone_adds_same; reflexivity |].
    split; [reflexivity | split; [reflexivity |]].
    exists [(repo, WorkTree false false)]. split; [reflexivity |].
    intros n [<- | []]. split; [left; reflexivity | split; [exact Hc |]].
    exists i. split; [exact Hg | right; exact Ha].
Qed.

Lemma clone_loop_adds (rs : list string) (s : St) :
  clone_adds rs s (snd (clone_loop rs s)).
Proof.
  revert s. induction rs as [| repo rs IH]; intros s;
    [apply clone_adds_same; reflexivity |].
  simpl. unfold bind.
  pose proof (clone_adds_incl [repo] (repo :: rs) _ _
                (fun x Hx => match Hx with or_introl H => or_introl H
                                         | or_intror H => match H with end end)
                (clone_one_adds repo s)) as H1.
  destruct (clone_one repo s) as [[[] | e] s1]; cbn [snd] in H1 |- *; [| exact H1].
  eapply clone_adds_trans; [exact H1 |].
  apply (clone_adds_incl rs); [intros x Hx; right; exact Hx | apply IH].
Qed.

(** [Repos.clone] creates a directory only for a name of the list it is
    given that is a key of [active_repos] kept by the archive filter, and
    only when cloning that name succeeds; it never changes the object.
    This holds also when a clone raises midway. *)
Theorem clone_creates_only_kept (rs : list string) (s : St) (n : string) :
  self_ (snd (clone rs s)) = self_ s /\
  (path_exists n (fs (world (snd (clone rs s)))) = true ->
   path_exists n (fs (world s)) = false ->
   In n rs /\ mem n (clone_fails (world s)) = false /\
   exists i, dict_get n (active_repos (self_ s)) = Some i /\
     (include_archived (self_ s) = true \/ archived i = false)).
Proof.
  destruct (clone_loop_adds rs s) as (Hs & _ & added & Hf & Ha).
  unfold clone. split; [exact Hs |].
  rewrite Hf, path_exists_app. intros H Hn. rewrite Hn in H. simpl in H.
  apply Ha, mem_In, H.
Qed.

Lemma clone_creates_only_kept_witness :
  path_exists "alpha" (fs (world (snd (clone ["alpha"; "beta"; "gamma"] clone_st)))) = true /\
  path_exists "alpha" (fs (world clone_st)) = false /\
  In "alpha" ["alpha"; "beta"; "gamma"].
Proof.
  assert (H1 : path_exists "alpha"
                 (fs (world (snd (clone ["alpha"; "beta"; "gamma"] clone_st)))) = true)
    by (vm_compute; reflexivity).
  assert (H2 : path_exists "alpha" (fs (world clone_st)) = false) by (vm_compute; reflexivity).
  split; [exact H1 | split; [exact H2 |]].
  exact (proj1 (proj2 (clone_creates_only_kept ["alpha"; "beta"; "gamma"] clone_st "alpha") H1 H2)).
Defined.

(** ** The clone loop of [main] *)

Lemma clone_each_noop (it rs : list string) (s : St) :
  (forall repo, In repo rs -> settled (self_ s) (fs (world s)) repo = true) ->
  exists l, clone_each it rs s = (Ok tt, appended s l) /\ no_clone l.
Proof.
  revert s. induction it as [| x it IH]; intros s H.
  - exists []. rewrite appended_nil. split; [reflexivity | constructor].
  - destruct (clone_loop_noop rs s H) as [l1 [E1 N1]].
    destruct (IH (appended s l1)) as [l2 [E2 N2]]; [exact H |].
    exists (l1 ++ l2). simpl. unfold bind, clone. rewrite E1, E2, appended_appended.
    split; [reflexivity | apply Forall_app; split; assumption].
Qed.

(** In [main], [repositories.clone(missing_repos)] runs once per missing
    name; when the first run completes, every later run clones nothing and
    leaves the object and the folder as the first run left them: only the
    "Cloning" lines are printed again. *)
Theorem clone_each_repeats_nothing (it rs : list string) (x : string) (s s1 : St)
    (Hfirst : clone rs s = (Ok tt, s1)) :
  exists l, clone_each (x :: it) rs s = (Ok tt, appended s1 l) /\ no_clone l.
Proof.
  simpl. unfold bind. rewrite Hfirst.
  apply clone_each_noop. exact (clone_loop_settles rs s s1 Hfirst).
Qed.

Lemma clone_each_repeats_nothing_witness :
  clone ["alpha"; "beta"; "gamma"] clone_st =
    (Ok tt, snd (clone ["alpha"; "beta"; "gamma"] clone_st)) /\
  exists l, clone_each ["alpha"; "beta"; "gamma"] ["alpha"; "beta"; "gamma"] clone_st =
    (Ok tt, appended (snd (clone ["alpha"; "beta"; "gamma"] clone_st)) l) /\ no_clone l.
Proof.
  assert (H : clone ["alpha"; "beta"; "gamma"] clone_st =
              (Ok tt, snd (clone ["alpha"; "beta"; "gamma"] clone_st)))
    by (vm_compute; reflexivity).
  exact (conj H (clone_each_repeats_nothing ["beta"; "gamma"] _ "alpha" _ _ H)).
Defined.
Lemma print_loop_step (cur : option (bool * bool)) (repo : string) (rs : list string) (s : St) :
  (exists e s', print_loop cur (repo :: rs) s = (Raise e, s')) \/
  exists cur' s1 c line, print_loop cur (repo :: rs) s = print_loop cur' rs s1 /\
    fs (world s1) = fs (world s) /\ log (world s1) = log (world s) ++ [Status c line].
Proof.
  cbn [print_loop].
  unfold getitem, get_self, put_self, get_world, put_world, emit, with_log, bind, ret, raise.
  cbn -[print_loop path_exists].
  repeat (match goal with
         | |- context [match path_exists ?a ?b with _ => _ end] => destruct (path_exists a b)
         | |- context [match entry_of ?a ?b with _ => _ end] => destruct (entry_of a b) as [[? ?|] |]
         | |- context [match dict_get ?a ?b with _ => _ end] => destruct (dict_get a b)
         | |- context [match orphaned ?a with _ => _ end] => destruct (orphaned a)
         | |- context [match archived ?a with _ => _ end] => destruct (archived a)
         | |- context [match ?b with true => _ | false => _ end] => is_var b; destruct b
         | |- context [match ?b with Some _ => _ | None => _ end] => is_var b; destruct b as [[? ?] |]
         end; cbn -[print_loop path_exists]).
  all: first [ right; do 4 eexists; split; [reflexivity | split; reflexivity] | left; do 2 eexists; reflexivity ].
Qed.

Lemma print_loop_ok_log (rs : list string) :
  forall cur s, fst (print_loop cur rs s) = Ok tt ->
  exists l, log (world (snd (print_loop cur rs s))) = log (world s) ++ l /\
    length l = length rs /\ Forall is_status l /\
    fs (world (snd (print_loop cur rs s))) = fs (world s).
Proof.
  induction rs as [| repo rs IH]; intros cur s Hok.
  - exists []. rewrite app_nil_r. repeat split; constructor.
  - destruct (print_loop_step cur repo rs s) as [(e & s' & E) | (cur' & s1 & c & line & E & Hf & Hl)];
      rewrite E in Hok |- *; [discriminate |].
    destruct (IH cur' s1 Hok) as (l & Hl' & Hn & Hs & Hf').
    exists (Status c line :: l). rewrite Hl', Hl, <- app_assoc.
    split; [reflexivity |]. split; [simpl; rewrite Hn; reflexivity |].
    split; [constructor; [exact I | exact Hs] | congruence].
Qed.

(** When [Repos.print] completes, it has printed exactly one status line
    per name of its list (and nothing else), and the folder is unchanged. *)
Theorem print_ok_one_line_each (rs : list string) (s : St)
    (Hok : fst (print rs s) = Ok tt) :
  exists l, log (world (snd (print rs s))) = log (world s) ++ l /\
    length l = length rs /\ Forall is_status l /\
    fs (world (snd (print rs s))) = fs (world s).
Proof. apply print_loop_ok_log, Hok. Qed.

Lemma print_loop_step_openable (cur : option (bool * bool)) (repo : string)
    (rs : list string) (s : St) :
  (path_exists repo (fs (world s)) = true ->
   (exists u d, entry_of repo (fs (world s)) = Some (WorkTree u d)) /\
   exists i, dict_get repo (active_repos (self_ s)) = Some i) ->
  exists cur' s1, print_loop cur (repo :: rs) s = print_loop cur' rs s1 /\
    self_ s1 = self_ s /\ fs (world s1) = fs (world s).
Proof.
  intros H. cbn [print_loop].
  unfold getitem, get_self, put_self, get_world, put_world, emit, with_log, bind, ret, raise.
  cbn -[print_loop path_exists].
  destruct (path_exists repo (fs (world s))) eqn:Hp.
  - destruct (H eq_refl) as [[u [d He]] [i Hg]]. rewrite He. cbn -[print_loop path_exists].
    destruct u; cbn -[print_loop path_exists];
      [do 2 eexists; split; [reflexivity | split; [reflexivity | reflexivity]] |].
    destruct d; cbn -[print_loop path_exists];
      [do 2 eexists; split; [reflexivity | split; [reflexivity | reflexivity]] |].
    rewrite Hg. cbn -[print_loop path_exists].
    destruct (orphaned i), (archived i); cbn -[print_loop path_exists];
      (do 2 eexists; split; [reflexivity | split; [reflexivity | reflexivity]]).
  - do 2 eexists; split; [reflexivity | split; reflexivity].
Qed.

Lemma print_loop_openable_ok (rs : list string) :
  forall cur s,
  (forall r, In r rs -> path_exists r (fs (world s)) = true ->
     (exists u d, entry_of r (fs (world s)) = Some (WorkTree u d)) /\
     exists i, dict_get r (active_repos (self_ s)) = Some i) ->
  fst (print_loop cur rs s) = Ok tt /\ self_ (snd (print_loop cur rs s)) = self_ s.
Proof.
  induction rs as [| repo rs IH]; intros cur s H; [split; reflexivity |].
  destruct (print_loop_step_openable cur repo rs s (H repo (or_introl eq_refl)))
    as (cur' & s1 & E & Hs & Hf).
  rewrite E. rewrite <- Hs. apply IH.
  intros r Hr. rewrite Hf, Hs. apply H. right. exact Hr.
Qed.

(** [Repos.print] completes, without touching the object, when every
    listed name whose directory exists is a working tree [git] can open
    and a key of [active_repos]; names with no directory need neither. *)
Theorem print_ok_when_openable (rs : list string) (s : St)
    (Hopen : forall r, In r rs -> path_exists r (fs (world s)) = true ->
       (exists u d, entry_of r (fs (world s)) = Some (WorkTree u d)) /\
       exists i, dict_get r (active_repos (self_ s)) = Some i) :
  fst (print rs s) = Ok tt /\ self_ (snd (print rs s)) = self_ s.
Proof. apply print_loop_openable_ok, Hopen. Qed.

Lemma print_ok_one_line_each_witness :
  fst (print ["alpha"; "beta"; "gamma"] clone_st) = Ok tt /\
  exists l, log (world (snd (print ["alpha"; "beta"; "gamma"] clone_st))) =
              log (world clone_st) ++ l /\ length l = 3.
Proof.
  assert (H : fst (print ["alpha"; "beta"; "gamma"] clone_st) = Ok tt)
    by (vm_compute; reflexivity).
  split; [exact H |].
  destruct (print_ok_one_line_each ["alpha"; "beta"; "gamma"] clone_st H) as (l & H1 & H2 & _).
  exists l. exact (conj H1 H2).
Defined.

Lemma print_ok_when_openable_witness :
  (forall r, In r ["alpha"; "beta"; "gamma"] -> path_exists r (fs (world clone_st)) = true ->
     (exists u d, entry_of r (fs (world clone_st)) = Some (WorkTree u d)) /\
     exists i, dict_get r (active_repos (self_ clone_st)) = Some i) /\
  fst (print ["alpha"; "beta"; "gamma"] clone_st) = Ok tt.
Proof.
  assert (H : forall r, In r ["alpha"; "beta"; "gamma"] ->
             path_exists r (fs (world clone_st)) = true ->
             (exists u d, entry_of r (fs (world clone_st)) = Some (WorkTree u d)) /\
             exists i, dict_get r (active_repos (self_ clone_st)) = Some i).
  { intros r [<- | [<- | [<- | []]]]; vm_compute; try discriminate.
    intros _. split; [exists false, true; reflexivity | eexists; reflexivity]. }
  exact (conj H (proj1 (print_ok_when_openable _ _ H))).
Defined.

(** ** [main] *)

Lemma bind_ok {A B} (m : M A) (f : A -> M B) (s s' : St) (a : A) :
  m s = (Ok a, s') -> bind m f s = f a s'.
Proof. intros E. unfold bind. rewrite E. reflexivity. Qed.

Lemma parse_args_pass (parse_known_args : list string -> ParseResult)
    (argv : list string) (s : St) (ns : Namespace) (unk : list string) :
  parse_known_args argv = Known ns unk ->
  stdin_isatty (world s) = false \/ unk = [] ->
  parse_args parse_known_args argv s = (Ok ns, s).
Proof.
  intros E. unfold parse_args, get_world, bind, ret. rewrite E. cbn -[stdin_isatty].
  intros [H | H]; [rewrite H; reflexivity |].
  subst unk. destruct (stdin_isatty (world s)); reflexivity.
Qed.

Lemma get_loop_unowned (u : string) (rs : list GhRepo) (d : dict RepoInfo) :
  (forall r, In r rs -> gh_owner_login r <> u) -> get_loop u rs d = d.
Proof.
  revert d. induction rs as [| r rs IH]; intros d H; simpl; [reflexivity |].
  destruct (String.eqb_spec (gh_owner_login r) u) as [E | _];
    [exfalso; exact (H r (or_introl eq_refl) E) |].
  apply IH. intros r' Hr'. apply H. right. exact Hr'.
Qed.

(** When no repository of the listing belongs to [u] (and [parse_args]
    lets the run go on: argparse accepts the command line, and there is
    no unknown argument or standard input is not a terminal), [main]
    prints "No repos found." and nothing else: no status line, no clone,
    no deletion, whatever the flags. *)
Theorem main_no_repos (parse_known_args : list string -> ParseResult)
    (remote : list GhRepo) (u : string) (argv : list string) (s : St)
    (Hparse : exists ns unk, parse_known_args argv = Known ns unk /\
                             (stdin_isatty (world s) = false \/ unk = []))
    (Hnone : forall r, In r remote -> gh_owner_login r <> u) :
  fst (main parse_known_args remote u argv s) = Ok tt /\
  world (snd (main parse_known_args remote u argv s)) =
    with_log (world s) (log (world s) ++ [Out "No repos found."]).
Proof.
  destruct Hparse as (ns & unk & E & Hp).
  unfold main. rewrite (bind_ok _ _ _ _ _ (parse_args_pass parse_known_args argv s ns unk E Hp)).
  unfold get_world, get_self, put_self, emit, put_world, bind, ret.
  cbn -[repos_init get_loop missing classify].
  rewrite get_loop_unowned by exact Hnone.
  cbn. split; reflexivity.
Qed.

(** A computation that never removes an entry of the folder. *)
Definition Keeps {A} (m : M A) : Prop :=
  forall s e, In e (fs (world s)) -> In e (fs (world (snd (m s)))).

Lemma Keeps_ret {A} (a : A) : Keeps (ret a).
Proof. intros s e H. exact H. Qed.

Lemma Keeps_get_self : Keeps get_self.
Proof. intros s e H. exact H. Qed.

Lemma Keeps_get_world : Keeps get_world.
Proof. intros s e H. exact H. Qed.

Lemma Keeps_put_self (r : Repos) : Keeps (put_self r).
Proof. intros s e H. exact H. Qed.

Lemma Keeps_emit (ev : Event) : Keeps (emit ev).
Proof. intros s e H. exact H. Qed.

Lemma Keeps_bind {A B} (m : M A) (f : A -> M B) :
  Keeps m -> (forall a, Keeps (f a)) -> Keeps (bind m f).
Proof.
  intros Hm Hf s e H. unfold bind. pose proof (Hm s e H) as H1.
  destruct (m s) as [[a | x] s1]; [apply Hf, H1 | exact H1].
Qed.

Lemma Keeps_print (rs : list string) : Keeps (print rs).
Proof.
  intros s e H. unfold print.
  destruct (print_loop_frame rs s rs (fun x Hx => Hx) None s (print_frame_refl rs s))
    as (_ & _ & Hf & _). rewrite Hf. exact H.
Qed.

Lemma Keeps_clone (rs : list string) : Keeps (clone rs).
Proof.
  intros s e H. destruct (clone_loop_grows rs s) as (_ & _ & added & Hf & _).
  unfold clone. rewrite Hf. apply in_or_app. left. exact H.
Qed.

Lemma Keeps_clone_each (it rs : list string) : Keeps (clone_each it rs).
Proof.
  induction it as [| x it IH]; simpl; [apply Keeps_ret |].
  apply Keeps_bind; [apply Keeps_clone | intros _; exact IH].
Qed.

Lemma Keeps_emit_all (es : list Event) : Keeps (emit_all es).
Proof.
  induction es as [| ev es IH]; simpl; [apply Keeps_ret |].
  apply Keeps_bind; [apply Keeps_emit | intros _; exact IH].
Qed.

Lemma parse_args_result (parse_known_args : list string -> ParseResult)
    (argv : list string) (s s' : St) (a : Namespace) :
  parse_args parse_known_args argv s = (Ok a, s') ->
  exists unk, parse_known_args argv = Known a unk.
Proof.
  unfold parse_args, get_world, emit, put_world, bind, ret, raise.
  destruct (parse_known_args argv) as [ns [| x unk] | code out]; cbn -[stdin_isatty];
    try destruct (stdin_isatty (world s)); intros E; injection E; intros; subst;
    try discriminate; eexists; reflexivity.
Qed.

Lemma parse_args_fs (parse_known_args : list string -> ParseResult)
    (argv : list string) (s : St) :
  fs (world (snd (parse_args parse_known_args argv s))) = fs (world s).
Proof.
  unfold parse_args, get_world, emit, put_world, bind, ret, raise.
  destruct (parse_known_args argv) as [ns [| y unk] | code out]; cbn -[stdin_isatty];
    try destruct (stdin_isatty (world s)); reflexivity.
Qed.

Create HintDb keeps_db.
#[local] Hint Resolve Keeps_ret Keeps_get_self Keeps_get_world Keeps_put_self Keeps_emit
  Keeps_print Keeps_clone_each Keeps_emit_all : keeps_db.

Ltac keeps_step :=
  first
    [ solve [auto with keeps_db]
    | apply Keeps_bind; [| intros ?]
    | match goal with
      | |- Keeps (match ?x with _ => _ end) => destruct x
      | |- Keeps (if ?x then _ else _) => destruct x
      end ].

(** Without [--delete], [main] never removes anything from the folder:
    every entry present before the run is still there after it, whatever
    the other flags and also when the run stops on an exception (argparse's
    own exits included). *)
Theorem main_keeps_folder (parse_known_args : list string -> ParseResult)
    (remote : list GhRepo) (u : string) (argv : list string) (s : St)
    (Hnodel : forall ns unk, parse_known_args argv = Known ns unk -> a_delete ns = false)
    (e : string * Entry)
    (He : In e (fs (world s))) :
  In e (fs (world (snd (main parse_known_args remote u argv s)))).
Proof.
  unfold main, bind at 1.
  pose proof (parse_args_fs parse_known_args argv s) as Hs1.
  destruct (parse_args parse_known_args argv s) as [[a | x] s1] eqn:Ep;
    cbn [snd] in Hs1; [| cbn [snd]; rewrite Hs1; exact He].
  destruct (parse_args_result _ _ _ _ _ Ep) as [unk Ha].
  pose proof (Hnodel a unk Ha) as Hd.
  rewrite <- Hs1 in He. clear Ep Hs1 Ha. revert s1 e He. fold (@Keeps unit).
  rewrite Hd.
  repeat keeps_step.
Qed.

(** A non-interactive run ([sys.stdin] is [None]). *)
Definition main_st : St :=
  {| self_ := self_of [] false false;
     world := world_of [("beta", WorkTree false false); ("ghost", WorkTree false false)] |}.

Lemma main_no_repos_witness :
  (exists ns unk, known_args ["-d"; "-y"] = Known ns unk /\
                  (stdin_isatty (world main_st) = false \/ unk = [])) /\
  (forall r, In r sample_remote -> gh_owner_login r <> "nobody") /\
  world (snd (main known_args sample_remote "nobody" ["-d"; "-y"] main_st)) =
    with_log (world main_st) (log (world main_st) ++ [Out "No repos found."]).
Proof.
  assert (H1 : exists ns unk, known_args ["-d"; "-y"] = Known ns unk /\
                              (stdin_isatty (world main_st) = false \/ unk = []))
    by (eexists; eexists; split; [reflexivity | left; reflexivity]).
  assert (H2 : forall r, In r sample_remote -> gh_owner_login r <> "nobody")
    by (intros r [<- | [<- | [<- | []]]]; simpl; discriminate).
  exact (conj H1 (conj H2 (proj2 (main_no_repos known_args sample_remote "nobody"
                                    ["-d"; "-y"] main_st H1 H2)))).
Defined.

Lemma main_keeps_folder_witness :
  (forall ns unk, known_args ["-c"; "-m"] = Known ns unk -> a_delete ns = false) /\
  In ("ghost", WorkTree false false) (fs (world main_st)) /\
  In ("ghost", WorkTree false false)
    (fs (world (snd (main known_args sample_remote "dg" ["-c"; "-m"] main_st)))).
Proof.
  assert (H1 : forall ns unk, known_args ["-c"; "-m"] = Known ns unk -> a_delete ns = false)
    by (intros ns unk E; vm_compute in E; injection E; intros _ <-; reflexivity).
  assert (H2 : In ("ghost", WorkTree false false) (fs (world main_st)))
    by (right; left; reflexivity).
  exact (conj H1 (conj H2 (main_keeps_folder known_args sample_remote "dg" ["-c"; "-m"]
                             main_st H1 _ H2))).
Defined.

(** ** The confirmation of [Repos.delete] *)

Lemma lower_one_y (c : Ascii.ascii) :
  lower (String c EmptyString) = "y" <->
  String c EmptyString = "y" \/ String c EmptyString = "Y".
Proof.
  split.
  - destruct c as [b0 b1 b2 b3 b4 b5 b6 b7];
      destruct b0, b1, b2, b3, b4, b5, b6, b7; vm_compute;
      first [intros _; left; reflexivity | intros _; right; reflexivity | discriminate].
  - intros [-> | ->]; reflexivity.
Qed.

(** The answer [choice] to "Press 'y' to delete ..." confirms the deletion
    ([choice.lower() == "y"]) exactly when it is ["y"] or ["Y"]. *)
Theorem affirmative_iff (choice : string) :
  affirmative choice = true <-> choice = "y" \/ choice = "Y".
Proof.
  unfold affirmative. rewrite String.eqb_eq.
  destruct choice as [| c [| c' rest]].
  - split; [discriminate | intros [H | H]; discriminate].
  - apply lower_one_y.
  - simpl. split; [discriminate | intros [H | H]; discriminate].
Qed.

(** ** The URL [Repos.clone] clones from *)

(** Every clone started between [s] and [s'] is of a name of [rs] into its
    directory under [repo_folder], from the [ssh_url] of its record with
    the host rewritten to the alias [github-dg]. *)
Definition clone_urls (rs : list string) (s s' : St) : Prop :=
  self_ s' = self_ s /\
  exists l, log (world s') = log (world s) ++ l /\
    forall url p, In (CloneFrom url p) l ->
      exists n i, In n rs /\ p = (repo_folder ++ n)%string /\
        dict_get n (active_repos (self_ s)) = Some i /\
        url = str_replace "github.com" "github-dg" (ssh_url i).

Lemma clone_urls_log (rs : list string) (s s' : St) (l : list Event) :
  self_ s' = self_ s -> log (world s') = log (world s) ++ l ->
  (forall url p, ~ In (CloneFrom url p) l) -> clone_urls rs s s'.
Proof.
  intros H1 H2 H3. split; [exact H1 |]. exists l. split; [exact H2 |].
  intros url p H. exfalso. exact (H3 url p H).
Qed.

Lemma clone_urls_trans (rs : list string) (s1 s2 s3 : St) :
  clone_urls rs s1 s2 -> clone_urls rs s2 s3 -> clone_urls rs s1 s3.
Proof.
  intros (Hs1 & l1 & Hl1 & H1) (Hs2 & l2 & Hl2 & H2).
  split; [congruence |]. exists (l1 ++ l2). rewrite Hl2, Hl1, app_assoc.
  split; [reflexivity |]. intros url p Hin. apply in_app_or in Hin as [Hin | Hin];
    [exact (H1 url p Hin) | rewrite <- Hs1; exact (H2 url p Hin)].
Qed.

Lemma clone_urls_incl (rs rs' : list string) (s s' : St) :
  incl rs rs' -> clone_urls rs s s' -> clone_urls rs' s s'.
Proof.
  intros Hi (Hs & l & Hl & H). split; [exact Hs |]. exists l. split; [exact Hl |].
  intros url p Hin. destruct (H url p Hin) as (n & i & Hn & R).
  exists n, i. split; [apply Hi, Hn | exact R].
Qed.

Lemma clone_one_urls (repo : string) (s : St) :
  clone_urls [repo] s (snd (clone_one repo s)).
Proof.
  unfold clone_one, getitem, emit, clone_from, get_self, get_world, put_world, with_log,
    bind, ret, raise.
  assert (Hno : forall url p, ~ In (CloneFrom url p) [Out ""; Out ("Cloning " ++ repo ++ "...")])
    by (intros url p [H | [H | []]]; discriminate).
  assert (Hone : forall i, dict_get repo (active_repos (self_ s)) = Some i ->
    clone_urls [repo] s
      {| self_ := self_ s;
         world := {| fs := fs (world s) ++ [(repo, WorkTree false false)];
                     stdin := stdin (world s); answers := answers (world s);
                     clone_fails := clone_fails (world s);
                     log := ((log (world s) ++ [Out ""]) ++
                             [Out ("Cloning " ++ repo ++ "...")]) ++
                            [CloneFrom (str_replace "github.com" "github-dg" (ssh_url i))
                                       (repo_folder ++ repo)] |} |}).
  { intros i Hg. split; [reflexivity |].
    exists [Out ""; Out ("Cloning " ++ repo ++ "...");
            CloneFrom (str_replace "github.com" "github-dg" (ssh_url i)) (repo_folder ++ repo)].
    split; [cbn; rewrite <- !app_assoc; reflexivity |].
    intros url p [H | [H | [H | []]]]; try discriminate.
    injection H as <- <-. exists repo, i.
    split; [left; reflexivity | split; [reflexivity | split; [exact Hg | reflexivity]]]. }
  destruct (include_archived (self_ s)) eqn:Hi; cbn [negb].
  - cbn -[path_exists mem]. destruct (path_exists repo (fs (world s))); cbn -[path_exists mem].
    + apply (clone_urls_log _ _ _ [Out ""; Out ("Cloning " ++ repo ++ "...")]);
        [reflexivity | cbn; rewrite <- app_assoc; reflexivity | exact Hno].
    + destruct (dict_get repo (active_repos (self_ s))) as [i |] eqn:Hg; cbn -[path_exists mem].
      * destruct (mem repo (clone_fails (world s))); cbn -[path_exists mem];
          [| first [exact (Hone i Hg) | exact (Hone i eq_refl)]].
        apply (clone_urls_log _ _ _ [Out ""; Out ("Cloning " ++ repo ++ "...")]);
          [reflexivity | cbn; rewrite <- app_assoc; reflexivity | exact Hno].
      * apply (clone_urls_log _ _ _ [Out ""; Out ("Cloning " ++ repo ++ "...")]);
          [reflexivity | cbn; rewrite <- app_assoc; reflexivity | exact Hno].
  - destruct (dict_get repo (active_repos (self_ s))) as [i |] eqn:Hg;
      cbn -[path_exists mem];
      [| apply (clone_urls_log _ _ _ []);
         [reflexivity | rewrite app_nil_r; reflexivity | intros url p []]].
    destruct (archived i); cbn -[path_exists mem];
      [apply (clone_urls_log _ _ _ []);
         [reflexivity | rewrite app_nil_r; reflexivity | intros url p []] |].
    destruct (path_exists repo (fs (world s))); cbn -[path_exists mem].
    + apply (clone_urls_log _ _ _ [Out ""; Out ("Cloning " ++ repo ++ "...")]);
        [reflexivity | cbn; rewrite <- app_assoc; reflexivity | exact Hno].
    + rewrite Hg. cbn -[path_exists mem].
      destruct (mem repo (clone_fails (world s))); cbn -[path_exists mem];
        [| first [exact (Hone i Hg) | exact (Hone i eq_refl)]].
      apply (clone_urls_log _ _ _ [Out ""; Out ("Cloning " ++ repo ++ "...")]);
        [reflexivity | cbn; rewrite <- app_assoc; reflexivity | exact Hno].
Qed.

Lemma clone_loop_urls (rs : list string) (s : St) :
  clone_urls rs s (snd (clone_loop rs s)).
Proof.
  revert s. induction rs as [| repo rs IH]; intros s.
  - apply (clone_urls_log _ _ _ []); [reflexivity | rewrite app_nil_r; reflexivity |
      intros url p []].
  - simpl. unfold bind.
    pose proof (clone_urls_incl [repo] (repo :: rs) _ _
                  (fun x Hx => match Hx with or_introl H => or_introl H
                                           | or_intror H => match H with end end)
                  (clone_one_urls repo s)) as H1.
    destruct (clone_one repo s) as [[[] | e] s1]; cbn [snd] in H1 |- *; [| exact H1].
    eapply clone_urls_trans; [exact H1 |].
    apply (clone_urls_incl rs); [intros x Hx; right; exact Hx | apply IH].
Qed.

(** Every clone that [Repos.clone] (with [USE_GIT_URL] false) completes
    (each one recorded as a [CloneFrom] event; a clone that fails raises
    and records nothing) is of a name of its list, into [repo_folder]
    followed by that name, from the [ssh_url] of the name's record with
    "github.com" replaced by the SSH host alias "github-dg"; no completed
    clone uses the [git_url]. *)
Theorem clone_from_ssh_alias (rs : list string) (s : St) :
  exists l, log (world (snd (clone rs s))) = log (world s) ++ l /\
    forall url p, In (CloneFrom url p) l ->
      exists n i, In n rs /\ p = (repo_folder ++ n)%string /\
        dict_get n (active_repos (self_ s)) = Some i /\
        url = str_replace "github.com" "github-dg" (ssh_url i).
Proof. exact (proj2 (clone_loop_urls rs s)). Qed.
